(** * SVE SAXPY kernel and its timed benchmark driver

    A shallow embedding of the scalable-vector SAXPY program: the kernel
    [sve_saxpy], which walks two [std::vector<float>] objects with predicated
    SVE loads, a predicated multiply-add and a predicated store, and the
    driver [main], which resets [y], calls the kernel and reads the clock
    until a target duration has elapsed.

    Vectors live in a store of objects so that the two references the kernel
    receives may alias; every element access is recorded in an access log,
    and an access of an active lane outside the vector is a [Fault].

    The CPU workloads of the multi-workload benchmark ([main.cpp]) follow
    the driver: recursion, memory access, branches and matrix
    multiplication, over the same outcomes of a computation. *)

From Stdlib Require Import ZArith String.
From Stdlib Require Import SpecFloat.
From stdpp Require Import base tactics option list gmap.

Local Open Scope Z_scope.

(** ** Machine integers *)

(** [uint64_t] arithmetic wraps modulo 2^64. *)
Definition wrap64 (z : Z) : Z := z mod 2 ^ 64.

(** [std::vector<float>::max_size()] on a 64-bit target:
    [PTRDIFF_MAX / sizeof(float)]. *)
Definition max_size : Z := (2 ^ 63 - 1) / 4.

(** ** Outcomes of a computation over a state *)

Inductive result (S A : Type) : Type :=
| Done (a : A) (s : S)          (* normal return *)
| Throw (what : string) (s : S) (* a C++ exception leaves the function *)
| Fault                         (* access outside an object *)
| OutOfFuel.                    (* the loop was cut by the fuel bound *)

Arguments Done {S A} a s.
Arguments Throw {S A} what s.
Arguments Fault {S A}.
Arguments OutOfFuel {S A}.

Definition M (S A : Type) : Type := S -> result S A.

Definition ret {S A} (a : A) : M S A := fun s => Done a s.

Definition bind {S A B} (c : M S A) (k : A -> M S B) : M S B :=
  fun s =>
    match c s with
    | Done a s' => k a s'
    | Throw w s' => Throw w s'
    | Fault => Fault
    | OutOfFuel => OutOfFuel
    end.

Definition throw {S A} (what : string) : M S A := fun s => Throw what s.
Definition fault {S A} : M S A := fun _ => Fault.
Definition out_of_fuel {S A} : M S A := fun _ => OutOfFuel.

Notation "'let!' x ':=' c 'in' k" := (bind c (fun x => k))
  (at level 10, x pattern, c at level 100, k at level 200).
Notation "c ';;' k" := (bind c (fun _ => k))
  (at level 100, k at level 200, right associativity).

(** ** Memory: vector objects, pointers, access log *)

(** A pointer into the storage of a vector: the object and an element
    offset ([x.data() + i]). *)
Record ptr : Type := Ptr { p_obj : positive; p_off : nat }.

Definition ptr_add (p : ptr) (i : Z) : ptr :=
  Ptr (p_obj p) (p_off p + Z.to_nat i).

(** One element access, as seen on the memory bus. *)
Inductive access : Type :=
| Rd (obj : positive) (idx : nat)
| Wr (obj : positive) (idx : nat).

Record machine (F : Type) : Type := Machine {
  heap : gmap positive (list F);   (* the std::vector<float> objects *)
  log : list access                (* accesses so far, latest first *)
}.

Arguments Machine {F} heap log.
Arguments heap {F} m.
Arguments log {F} m.

Section Kernel.
Context {F : Type}.
(** The value of an inactive lane, and one lane of the fused multiply-add
    [FMAD]: [fmad a x y] is [a * x + y]. *)
Variable fzero : F.
Variable fmad : F -> F -> F -> F.
(** The number of 32-bit lanes of a vector register on the executing
    processor. *)
Variable lanes : nat.

Abbreviation mach := (machine F).

(** [v.size()] and [v.data()] of the vector object [v]. *)
Definition vec_size (v : positive) : M mach Z :=
  fun m =>
    match heap m !! v with
    | Some l => Done (Z.of_nat (length l)) m
    | None => Fault
    end.

Definition vec_data (v : positive) : ptr := Ptr v 0.

(** Scalar element load and store through a pointer. *)
Definition load (p : ptr) : M mach F :=
  fun m =>
    match heap m !! p_obj p with
    | Some l =>
        match l !! p_off p with
        | Some v => Done v (Machine (heap m) (Rd (p_obj p) (p_off p) :: log m))
        | None => Fault
        end
    | None => Fault
    end.

Definition store (p : ptr) (v : F) : M mach unit :=
  fun m =>
    match heap m !! p_obj p with
    | Some l =>
        if decide (p_off p < length l)%nat
        then Done tt (Machine (<[p_obj p := <[p_off p := v]> l]> (heap m))
                              (Wr (p_obj p) (p_off p) :: log m))
        else Fault
    | None => Fault
    end.

(** *** SVE intrinsics *)

Definition svbool_t : Type := list bool.
Definition svfloat32_t : Type := list F.

(** [svcntw()]: lanes per register, as a [uint64_t]. *)
Definition svcntw : Z := Z.of_nat lanes.

(** [WHILELO]: lane [e] is active while every comparison up to it held;
    the first operand is incremented with wrap-around. *)
Fixpoint whilelo (k : nat) (op1 op2 : Z) (last : bool) : svbool_t :=
  match k with
  | O => []
  | S k' =>
      let last' := last && (op1 <? op2) in
      last' :: whilelo k' (wrap64 (op1 + 1)) op2 last'
  end.

Definition svwhilelt_b32 (op1 op2 : Z) : svbool_t :=
  whilelo lanes op1 op2 true.

Definition svdup_n_f32 (a : F) : svfloat32_t := replicate lanes a.

(** [LD1W]: active lanes are loaded from consecutive elements, inactive
    lanes are zero and touch no memory. *)
Fixpoint svld1_f32 (pg : svbool_t) (base : ptr) : M mach svfloat32_t :=
  match pg with
  | [] => ret []
  | b :: pg' =>
      let! v := (if b : bool then load base else ret fzero) in
      let! vs := svld1_f32 pg' (ptr_add base 1) in
      ret (v :: vs)
  end.

(** [FMAD] with zeroing predication: [op1 * op2 + op3] on active lanes,
    zero elsewhere. *)
Fixpoint svmad_f32_z (pg : svbool_t) (op1 op2 op3 : svfloat32_t)
  : svfloat32_t :=
  match pg, op1, op2, op3 with
  | b :: pg', u :: op1', v :: op2', w :: op3' =>
      (if b : bool then fmad u v w else fzero)
        :: svmad_f32_z pg' op1' op2' op3'
  | _, _, _, _ => []
  end.

(** [ST1W]: only active lanes are written. *)
Fixpoint svst1_f32 (pg : svbool_t) (base : ptr) (data : svfloat32_t)
  : M mach unit :=
  match pg, data with
  | b :: pg', v :: data' =>
      (if b : bool then store base v else ret tt) ;;
      svst1_f32 pg' (ptr_add base 1) data'
  | _, _ => ret tt
  end.

(** *** The kernel *)

(** The [for (uint64_t i = 0; i < n; )] loop; [fuel] bounds the number of
    loop bodies executed. *)
Fixpoint saxpy_loop (fuel : nat) (a : F) (x_ptr y_ptr : ptr) (n i : Z)
  : M mach unit :=
  if i <? n then
    match fuel with
    | O => out_of_fuel
    | S fuel' =>
        let pg := svwhilelt_b32 i n in
        let! vec_x := svld1_f32 pg (ptr_add x_ptr i) in
        let! vec_y := svld1_f32 pg (ptr_add y_ptr i) in
        let result := svmad_f32_z pg (svdup_n_f32 a) vec_x vec_y in
        svst1_f32 pg (ptr_add y_ptr i) result ;;
        saxpy_loop fuel' a x_ptr y_ptr n (wrap64 (i + svcntw))
    end
  else ret tt.

Definition sve_saxpy (fuel : nat) (a : F) (x y : positive) : M mach unit :=
  let! xn := vec_size x in
  let! yn := vec_size y in
  if negb (xn =? yn) then throw "Vector sizes must be equal."
  else
    let n := xn in
    let x_ptr := vec_data x in
    let y_ptr := vec_data y in
    saxpy_loop fuel a x_ptr y_ptr n 0.

End Kernel.

(** ** IEEE 754 arithmetic *)

(** Fused multiply-add [x * y + z] with a single rounding (to nearest, ties
    to even), in the style of the Standard Library's [SFmul] and [SFadd]:
    the exact product is aligned with [z], summed, and rounded once. *)
Definition SFfma (prec emax : Z) (x y z : spec_float) : spec_float :=
  match x, y with
  | S754_nan, _ | _, S754_nan => S754_nan
  | S754_infinity _, S754_zero _ | S754_zero _, S754_infinity _ => S754_nan
  | S754_infinity sx, S754_infinity sy
  | S754_infinity sx, S754_finite sy _ _
  | S754_finite sx _ _, S754_infinity sy =>
      match z with
      | S754_nan => S754_nan
      | S754_infinity sz =>
          if Bool.eqb (xorb sx sy) sz then z else S754_nan
      | _ => S754_infinity (xorb sx sy)
      end
  | S754_finite sx _ _, S754_zero sy
  | S754_zero sx, S754_finite sy _ _
  | S754_zero sx, S754_zero sy =>
      match z with
      | S754_zero sz =>
          if Bool.eqb (xorb sx sy) sz then z else S754_zero false
      | _ => z
      end
  | S754_finite sx mx ex, S754_finite sy my ey =>
      match z with
      | S754_nan | S754_infinity _ => z
      | S754_zero _ => SFmul prec emax x y
      | S754_finite sz mz ez =>
          let ep := ex + ey in
          let er := Z.min ep ez in
          binary_normalize prec emax
            (cond_Zopp (xorb sx sy) (Zpos (fst (shl_align (mx * my) ep er)))
             + cond_Zopp sz (Zpos (fst (shl_align mz ez er))))
            er false
      end
  end.

(** The value of a float when it is an integer. *)
Definition SF2Z (f : spec_float) : option Z :=
  match f with
  | S754_zero _ => Some 0
  | S754_finite s m e =>
      if 0 <=? e then Some (cond_Zopp s (Zpos m * 2 ^ e))
      else if Zpos m mod 2 ^ (- e) =? 0
           then Some (cond_Zopp s (Zpos m / 2 ^ (- e)))
           else None
  | _ => None
  end.

(** C++ [float]: IEEE binary32. *)
Module Binary32.
Definition prec : Z := 24.
Definition emax : Z := 128.
Definition fzero : spec_float := S754_zero false.
Definition fadd : spec_float -> spec_float -> spec_float := SFadd prec emax.
Definition fmul : spec_float -> spec_float -> spec_float := SFmul prec emax.
Definition fma : spec_float -> spec_float -> spec_float -> spec_float :=
  SFfma prec emax.
(** Conversion from an integer, [static_cast<float>(z)]. *)
Definition of_Z (z : Z) : spec_float := binary_normalize prec emax z 0 false.
(** The literal [m * 2^e]. *)
Definition of_dyadic (m e : Z) : spec_float :=
  binary_normalize prec emax m e false.
(** [++value] on a [float]. *)
Definition finc (v : spec_float) : spec_float := fadd v (of_Z 1).
End Binary32.

(** C++ [double]: IEEE binary64. *)
Module Binary64.
Definition prec : Z := 53.
Definition emax : Z := 1024.
Definition fmul : spec_float -> spec_float -> spec_float := SFmul prec emax.
Definition fdiv : spec_float -> spec_float -> spec_float := SFdiv prec emax.
(** Conversion from an integer, [static_cast<double>(z)]. *)
Definition of_Z (z : Z) : spec_float := binary_normalize prec emax z 0 false.
End Binary64.

(** ** The benchmark driver *)

(** [std::chrono]: a time point is a count of nanosecond ticks;
    [duration_cast] truncates toward zero. *)
Definition duration_cast_seconds (ticks : Z) : Z := Z.quot ticks 1000000000.
Definition duration_cast_microseconds (ticks : Z) : Z := Z.quot ticks 1000.

(** What the driver writes to standard output, one constructor per line
    that carries data. *)
Inductive output : Type :=
| OutTargetDuration (seconds : Z)
| OutVectorSize (elements : Z)
| OutVectorLength (bits bytes : Z)
| OutProgress (elapsed_seconds iterations : Z)
| OutTotalIterations (iterations : Z)
| OutTotalTime (seconds : spec_float)
| OutPerformance (gflops : spec_float)
| OutVerify (idx : Z) (expected got : spec_float).

Record world : Type := World {
  mem : machine spec_float;   (* the vectors and the access log *)
  reads : nat;                (* clock readings taken so far *)
  stdout : list output;       (* lines printed so far, latest first *)
  calls : nat                 (* invocations of [sve_saxpy] so far *)
}.

(** The throughput as section 4.2 of the specification words it: total
    floating-point operations [2 * N * iterations], divided by the elapsed
    seconds, reported in GFLOPS; in double precision. *)
Definition spec_gflops (N iterations : Z) (elapsed_seconds : spec_float)
  : spec_float :=
  let total_flops :=
    Binary64.fmul (Binary64.fmul (Binary64.of_Z 2) (Binary64.of_Z N))
                  (Binary64.of_Z iterations) in
  Binary64.fdiv (Binary64.fdiv total_flops elapsed_seconds)
                (Binary64.of_Z (10 ^ 9)).

Section Driver.
(** Lanes per vector register of the executing processor. *)
Variable lanes : nat.
(** [clock k] is what the [k]-th call of
    [high_resolution_clock::now()] returns. *)
Variable clock : nat -> Z.
(** The constants of [main]. *)
Variable VECTOR_SIZE : Z.
Variable TARGET_DURATION_SECONDS : Z.

Definition a : spec_float := Binary32.of_dyadic 5 (-1).   (* 2.5f *)

Definition x : positive := 1%positive.
Definition y : positive := 2%positive.
Definition y_original : positive := 3%positive.

(** Run a computation on the memory inside the world. *)
Definition on_mem {A} (c : M (machine spec_float) A) : M world A :=
  fun w =>
    match c (mem w) with
    | Done r m' => Done r (World m' (reads w) (stdout w) (calls w))
    | Throw e m' => Throw e (World m' (reads w) (stdout w) (calls w))
    | Fault => Fault
    | OutOfFuel => OutOfFuel
    end.

Definition print (o : output) : M world unit :=
  fun w => Done tt (World (mem w) (reads w) (o :: stdout w) (calls w)).

Definition now : M world Z :=
  fun w => Done (clock (reads w))
                (World (mem w) (S (reads w)) (stdout w) (calls w)).

(** [std::vector<float> v(n)]: [n] value-initialised elements. *)
Definition vec_new (v : positive) (n : Z) : M (machine spec_float) unit :=
  fun m => Done tt (Machine (<[v := replicate (Z.to_nat n) Binary32.fzero]>
                               (heap m)) (log m)).

(** [v[i]] as an rvalue and [v[i] = val]; unchecked in C++, a [Fault]
    here when [i] is outside the vector. *)
Definition vec_get (v : positive) (i : Z) : M (machine spec_float) spec_float :=
  fun m =>
    match heap m !! v with
    | Some l =>
        match l !! Z.to_nat i with
        | Some f => if 0 <=? i then Done f m else Fault
        | None => Fault
        end
    | None => Fault
    end.

Definition vec_set (v : positive) (i : Z) (val : spec_float)
  : M (machine spec_float) unit :=
  fun m =>
    match heap m !! v with
    | Some l =>
        if (0 <=? i) && (i <? Z.of_nat (length l))
        then Done tt (Machine (<[v := <[Z.to_nat i := val]> l]> (heap m))
                              (log m))
        else Fault
    | None => Fault
    end.

(** [dst = src] on vectors: a copy of the contents. *)
Definition vec_assign (dst src : positive) : M (machine spec_float) unit :=
  fun m =>
    match heap m !! src with
    | Some l => Done tt (Machine (<[dst := l]> (heap m)) (log m))
    | None => Fault
    end.

(** [std::iota(first, last, value)]: [*first++ = value; ++value;]. *)
Fixpoint iota_fill (l : list spec_float) (value : spec_float)
  : list spec_float :=
  match l with
  | [] => []
  | _ :: l' => value :: iota_fill l' (Binary32.finc value)
  end.

Definition iota (v : positive) (value : spec_float)
  : M (machine spec_float) unit :=
  fun m =>
    match heap m !! v with
    | Some l => Done tt (Machine (<[v := iota_fill l value]> (heap m)) (log m))
    | None => Fault
    end.

(** [for (size_t i = i0; i < VECTOR_SIZE; ++i)
      y[i] = static_cast<float>(VECTOR_SIZE - i);]
    with [k] the number of indices left. *)
Fixpoint fill_y (k : nat) (i : Z) : M (machine spec_float) unit :=
  match k with
  | O => ret tt
  | S k' =>
      vec_set y i (Binary32.of_Z (wrap64 (VECTOR_SIZE - i))) ;;
      fill_y k' (wrap64 (i + 1))
  end.

(** Section 2 of [main]: allocation and initialisation. *)
Definition main_init : M world unit :=
  print (OutTargetDuration TARGET_DURATION_SECONDS) ;;
  print (OutVectorSize VECTOR_SIZE) ;;
  print (OutVectorLength (4 * Z.of_nat lanes * 8) (4 * Z.of_nat lanes)) ;;
  on_mem (vec_new x VECTOR_SIZE) ;;
  on_mem (vec_new y VECTOR_SIZE) ;;
  on_mem (vec_new y_original VECTOR_SIZE) ;;
  on_mem (iota x Binary32.fzero) ;;
  on_mem (fill_y (Z.to_nat VECTOR_SIZE) 0) ;;
  on_mem (vec_assign y_original y).

(** The call [sve_saxpy(a, x, y)] from [main]; the kernel needs at most
    one loop body per element. *)
Definition call_sve_saxpy : M world unit :=
  fun w =>
    on_mem (sve_saxpy Binary32.fzero Binary32.fma lanes
                      (Z.to_nat VECTOR_SIZE) a x y)
           (World (mem w) (reads w) (stdout w) (S (calls w))).

(** Section 3 of [main]: the [while (true)] loop; [fuel] bounds the
    number of loop bodies. [iterations] is a [long long], whose overflow
    is undefined. *)
Fixpoint main_loop (fuel : nat) (start_time iterations : Z) : M world Z :=
  match fuel with
  | O => out_of_fuel
  | S fuel' =>
      on_mem (vec_assign y y_original) ;;
      call_sve_saxpy ;;
      if 2 ^ 63 - 1 <=? iterations then fault
      else
        let iterations := iterations + 1 in
        let! current_time := now in
        let elapsed_seconds :=
          duration_cast_seconds (current_time - start_time) in
        (if Z.rem iterations 10 =? 0
         then print (OutProgress elapsed_seconds iterations)
         else ret tt) ;;
        if elapsed_seconds >=? TARGET_DURATION_SECONDS
        then ret iterations
        else main_loop fuel' start_time iterations
  end.

(** One line of the sample verification. *)
Definition verify (idx : Z) : M world unit :=
  let! xv := on_mem (vec_get x idx) in
  let! yo := on_mem (vec_get y_original idx) in
  let expected := Binary32.fadd (Binary32.fmul a xv) yo in
  let! got := on_mem (vec_get y idx) in
  print (OutVerify idx expected got).

(** Section 4 of [main]: the report. *)
Definition main_report (start_time iterations : Z) : M world Z :=
  let! end_time := now in
  let total_duration := duration_cast_microseconds (end_time - start_time) in
  print (OutTotalIterations iterations) ;;
  let seconds :=
    Binary64.fdiv (Binary64.of_Z total_duration) (Binary64.of_Z 1000000) in
  print (OutTotalTime seconds) ;;
  let gflops :=
    Binary64.fdiv
      (Binary64.fdiv
         (Binary64.fmul
            (Binary64.fmul (Binary64.of_Z 2) (Binary64.of_Z VECTOR_SIZE))
            (Binary64.of_Z iterations))
         (Binary64.fdiv (Binary64.of_Z total_duration)
                        (Binary64.of_Z 1000000)))
      (Binary64.of_Z 1000000000) in
  print (OutPerformance gflops) ;;
  verify 0 ;;
  verify 1 ;;
  verify 42 ;;
  verify (VECTOR_SIZE / 2) ;;
  verify (wrap64 (VECTOR_SIZE - 1)) ;;
  ret 0.

Definition main_with (fuel : nat) : M world Z :=
  main_init ;;
  let! start_time := now in
  let! iterations := main_loop fuel start_time 0 in
  main_report start_time iterations.

End Driver.

(** [main] with the constants of the source: ten million elements, a
    target of 120 seconds. *)
Definition main (lanes : nat) (clock : nat -> Z) (fuel : nat) : M world Z :=
  main_with lanes clock 10000000 120 fuel.

(** The world at process start. *)
Definition world0 : world := World (Machine ∅ []) 0 [] 0.

(** * The CPU workloads of the multi-workload benchmark

    The workloads of [main.cpp] whose behaviour is determined by integer
    arithmetic, by the contents of a vector or by the order of an
    accumulation. Values returned by [dis(gen)] come from an oracle
    [draw], indexed by the number of earlier draws. Each workload returns
    [void]; its model returns what the source leaves in the local it
    accumulates into, and leaves its vectors in the state. *)

(** ** Integers and counted loops *)

(** The result of an operation on [long long]: signed overflow is undefined
    behaviour, a [Fault] of the model. *)
Definition ll {St} (z : Z) : M St Z :=
  if (- 2 ^ 63 <=? z) && (z <=? 2 ^ 63 - 1) then ret z else fault.

(** [for (i = lo; i < hi; ++i) acc = body(i, acc)]; [fuel] bounds the number
    of bodies. *)
Fixpoint for_loop {St A} (fuel : nat) (i hi : Z) (body : Z -> A -> M St A)
    (acc : A) : M St A :=
  if i <? hi then
    match fuel with
    | O => out_of_fuel
    | S fuel' =>
        let! acc' := body i acc in
        for_loop fuel' (i + 1) hi body acc'
    end
  else ret acc.

(** ** Recursion *)

(** [fibonacci(n)]; the state counts the calls made, [depth] bounds the
    depth of the recursion. The operands of [+] are evaluated left to
    right. *)
Fixpoint fibonacci (depth : nat) (n : Z) : M Z Z :=
  match depth with
  | O => out_of_fuel
  | S depth' =>
      fun calls =>
        (if n <=? 1 then ret n
         else
           let! f1 := fibonacci depth' (n - 1) in
           let! f2 := fibonacci depth' (n - 2) in
           ll (f1 + f2)) (calls + 1)
  end.

(** [recursive_workload()]. *)
Definition recursive_workload (depth : nat) : M Z Z :=
  for_loop 10 30 40
           (fun i sum => let! f := fibonacci depth i in ll (sum + f)) 0.

(** ** Memory access *)

(** Conversion of an integer to [char]: modulo 2^8, into the range of a
    signed or of an unsigned [char], as the platform has it. *)
Definition to_char (char_signed : bool) (v : Z) : Z :=
  let b := v mod 256 in
  if char_signed && (128 <=? b) then b - 256 else b.

(** [std::vector<char> memory(size)]: [size] zero bytes; more than
    [max_size()] elements is a [length_error]. The state is the vector. *)
Definition char_vector (size : Z) : M (list Z) unit :=
  fun _ =>
    if 2 ^ 63 - 1 <? size
    then Throw "cannot create std::vector larger than max_size()" []
    else Done tt (replicate (Z.to_nat size) 0).

(** [memory[i]] and [memory[i] = v]: unchecked in C++, a [Fault] of the
    model when [i] is outside the vector. *)
Definition char_get (i : Z) : M (list Z) Z :=
  fun s =>
    match s !! Z.to_nat i with
    | Some c => if 0 <=? i then Done c s else Fault
    | None => Fault
    end.

Definition char_set (i v : Z) : M (list Z) unit :=
  fun s =>
    if (0 <=? i) && (i <? Z.of_nat (length s))
    then Done tt (<[Z.to_nat i := v]> s)
    else Fault.

(** [sequential_memory_access(size)]. *)
Definition sequential_memory_access (char_signed : bool) (size : Z)
  : M (list Z) Z :=
  char_vector size ;;
  for_loop (Z.to_nat size) 0 size
           (fun i _ => char_set i (to_char char_signed (Z.land i 255))) tt ;;
  for_loop 10 0 10
           (fun iter sum =>
              for_loop (Z.to_nat size) 0 size
                       (fun i sum => let! c := char_get i in ll (sum + c))
                       sum)
           0.

(** [random_memory_access(size)]: [draw k] is what the [k]-th call of
    [dis(gen)] returns. *)
Definition random_memory_access (char_signed : bool) (draw : nat -> Z)
    (size : Z) : M (list Z) Z :=
  char_vector size ;;
  (fun s => Done tt (replicate (length s) 0)) ;;
  for_loop (Z.to_nat 10000000) 0 10000000
           (fun i sum =>
              let index := draw (Z.to_nat i) in
              let! c := char_get index in
              let sum := to_char char_signed (sum + c) in
              char_set index sum ;;
              ret sum)
           0.

(** ** Branches *)

(** The first loop of [branch_intensive(iterations)]. *)
Definition branch_predictable (iterations : Z) : M unit Z :=
  for_loop (Z.to_nat iterations) 0 iterations
           (fun i sum => if Z.rem i 2 =? 0 then ll (sum + i) else ll (sum - i))
           0.

(** The body of its second loop, on the value drawn for the iteration. *)
Definition branch_unpredictable_body (draw : nat -> Z) (i sum : Z)
  : M unit Z :=
  let random_val := draw (Z.to_nat i) in
  if random_val <? 30 then ll (sum + random_val)
  else if random_val <? 60 then ll (sum * 2)
  else if random_val <? 90 then ll (sum - random_val)
  else ll (Z.quot sum 2).

Definition branch_unpredictable (draw : nat -> Z) (iterations sum : Z)
  : M unit Z :=
  for_loop (Z.to_nat (Z.quot iterations 10)) 0 (Z.quot iterations 10)
           (branch_unpredictable_body draw) sum.

(** [branch_intensive(iterations)]. *)
Definition branch_intensive (draw : nat -> Z) (iterations : Z) : M unit Z :=
  let! sum := branch_predictable iterations in
  branch_unpredictable draw iterations sum.

(** ** Matrix multiplication *)

(** The three matrices of [matrix_multiply] and the number of values drawn
    from [dis(gen)] so far. *)
Record matrices (F : Type) : Type := Matrices {
  mat_a : list (list F);
  mat_b : list (list F);
  mat_c : list (list F);
  drawn : nat
}.

Arguments Matrices {F} mat_a mat_b mat_c drawn.
Arguments mat_a {F} m.
Arguments mat_b {F} m.
Arguments mat_c {F} m.
Arguments drawn {F} m.

(** [m[i][j] = v] on a vector of vectors; [None] outside it. *)
Definition mat_insert {F} (i j : Z) (v : F) (m : list (list F))
  : option (list (list F)) :=
  if (0 <=? i) && (0 <=? j) then
    match m !! Z.to_nat i with
    | Some row =>
        if decide (Z.to_nat j < length row)%nat
        then Some (<[Z.to_nat i := <[Z.to_nat j := v]> row]> m)
        else None
    | None => None
    end
  else None.

(** [m[i][j]]. *)
Definition mat_lookup {F} (i j : Z) (m : list (list F)) : option F :=
  if (0 <=? i) && (0 <=? j)
  then m !! Z.to_nat i ≫= (.!! Z.to_nat j)
  else None.

Section Matrix.
Context {F : Type}.
Variable fzero : F.
(** [mac c t b] is [c + t * b], with the rounding the compiled code uses
    for it. *)
Variable mac : F -> F -> F -> F.
(** [draw k] is the [k]-th value returned by [dis(gen)]. *)
Variable draw : nat -> F.

Definition mat_get (sel : matrices F -> list (list F)) (i j : Z)
  : M (matrices F) F :=
  fun s =>
    match mat_lookup i j (sel s) with
    | Some v => Done v s
    | None => Fault
    end.

Definition mat_set_a (i j : Z) (v : F) : M (matrices F) unit :=
  fun s =>
    match mat_insert i j v (mat_a s) with
    | Some a' => Done tt (Matrices a' (mat_b s) (mat_c s) (drawn s))
    | None => Fault
    end.

Definition mat_set_b (i j : Z) (v : F) : M (matrices F) unit :=
  fun s =>
    match mat_insert i j v (mat_b s) with
    | Some b' => Done tt (Matrices (mat_a s) b' (mat_c s) (drawn s))
    | None => Fault
    end.

Definition mat_set_c (i j : Z) (v : F) : M (matrices F) unit :=
  fun s =>
    match mat_insert i j v (mat_c s) with
    | Some c' => Done tt (Matrices (mat_a s) (mat_b s) c' (drawn s))
    | None => Fault
    end.

(** [dis(gen)]. *)
Definition next_draw : M (matrices F) F :=
  fun s =>
    Done (draw (drawn s))
         (Matrices (mat_a s) (mat_b s) (mat_c s) (S (drawn s))).

(** The initialisation loops of [matrix_multiply]. *)
Definition matrix_init (size : Z) : M (matrices F) unit :=
  for_loop (Z.to_nat size) 0 size
    (fun i _ =>
       for_loop (Z.to_nat size) 0 size
         (fun j _ =>
            let! r := next_draw in
            mat_set_a i j r ;;
            let! r := next_draw in
            mat_set_b i j r)
         tt)
    tt.

(** Its multiplication loops, in the order [i], [k], [j]. *)
Definition matrix_product (size : Z) : M (matrices F) unit :=
  for_loop (Z.to_nat size) 0 size
    (fun i _ =>
       for_loop (Z.to_nat size) 0 size
         (fun k _ =>
            let! temp := mat_get mat_a i k in
            for_loop (Z.to_nat size) 0 size
              (fun j _ =>
                 let! bkj := mat_get mat_b k j in
                 let! cij := mat_get mat_c i j in
                 mat_set_c i j (mac cij temp bkj))
              tt)
         tt)
    tt.

(** [matrix_multiply(size)]: the vectors are created with [size] rows of
    [size] zeros; a negative [size], converted to [size_t], is more than
    [max_size()]. The state it leaves holds the locals [a], [b] and [c]. *)
Definition matrix_multiply (size : Z) : M (matrices F) unit :=
  (fun s =>
     if size <? 0
     then Throw "cannot create std::vector larger than max_size()" s
     else
       let zeros :=
         replicate (Z.to_nat size) (replicate (Z.to_nat size) fzero) in
       Done tt (Matrices zeros zeros zeros 0)) ;;
  matrix_init size ;;
  matrix_product size.

End Matrix.

(** [0.0] and [c + t * b] on [double], the product rounded before the
    sum. *)
Definition double_zero : spec_float := S754_zero false.

Definition double_mac (c t b : spec_float) : spec_float :=
  SFadd Binary64.prec Binary64.emax c (Binary64.fmul t b).

(** * Specification vocabulary and invariants *)

Section KernelSpec.
Context {F : Type}.
Variable fmad : F -> F -> F -> F.
Variable lanes : nat.

(** The predicate of a loop step: the first [c] lanes active. *)
Definition mask (c r : nat) : svbool_t := replicate c true ++ replicate r false.

(** Contents of [y] once the elements below [j] have been processed. *)
Definition saxpy_upto (a : F) (X0 Y0 : list F) (j : nat) : list F :=
  zip_with (fmad a) (take j X0) (take j Y0) ++ drop j Y0.

(** The accesses the kernel may make on vectors of [n] elements: loads
    from [x] and [y], stores to [y], all below [n]. *)
Definition kernel_access (x y : positive) (n : nat) (ev : access) : Prop :=
  match ev with
  | Rd o i => (o = x \/ o = y) /\ (i < n)%nat
  | Wr o i => o = y /\ (i < n)%nat
  end.

(** The accesses of one loop step at [j] with [c] active lanes, latest
    first: loads of [x], loads of [y], stores to [y]. *)
Definition chunk_log (x y : positive) (j c : nat) : list access :=
  reverse (Wr y <$> seq j c) ++ reverse (Rd y <$> seq j c)
    ++ reverse (Rd x <$> seq j c).

(** The loop invariant: at cursor [j] the elements of [y] below [j]
    hold their final value, the others their initial one; [x] still
    has its initial elements from [j] on; and the cursor is 0 or at
    least one register past it, so that it never wraps. *)
Definition loop_inv (a : F) (x y : positive) (X0 Y0 : list F) (n j : nat)
    (m : machine F) : Prop :=
  (j = 0 \/ lanes <= j)%nat
  /\ (exists Xc, heap m !! x = Some Xc /\ length Xc = n
                 /\ drop (j `min` n) Xc = drop (j `min` n) X0)
  /\ heap m !! y = Some (saxpy_upto a X0 Y0 (j `min` n)).

(** The machine after the loop step at [j]. *)
Definition after_step (a : F) (x y : positive) (X0 Y0 : list F) (n j : nat)
    (m : machine F) : machine F :=
  let c := (lanes `min` (n - j))%nat in
  Machine (<[y := saxpy_upto a X0 Y0 (j + c)]> (heap m))
          (chunk_log x y j c ++ log m).

End KernelSpec.

(** The ramp [0, 1, ..., N-1] and the descending ramp [N, ..., 1], as
    floats. *)
Definition ramp (N : Z) : list spec_float := Binary32.of_Z <$> seqZ 0 N.
Definition descending (N : Z) : list spec_float :=
  (fun i => Binary32.of_Z (N - i)) <$> seqZ 0 N.

Section DriverSpec.
Variable lanes : nat.
Variable clock : nat -> Z.
Variable N : Z.
Variable T : Z.

(** The vectors at the entry of the timed loop. *)
Definition initialised (w : world) : Prop :=
  heap (mem w) !! x = Some (ramp N)
  /\ heap (mem w) !! y_original = Some (descending N)
  /\ is_Some (heap (mem w) !! y).

(** What [y] holds after every kernel call of the driver. *)
Definition y_result : list spec_float :=
  zip_with (Binary32.fma a) (ramp N) (descending N).

(** The vectors once the timed loop has run. *)
Definition computed (w : world) : Prop :=
  heap (mem w) !! x = Some (ramp N)
  /\ heap (mem w) !! y_original = Some (descending N)
  /\ heap (mem w) !! y = Some y_result.

Definition is_progress (o : output) : Prop :=
  match o with OutProgress _ _ => True | _ => False end.

(** The progress line of the iteration that makes the count [it]. *)
Definition progress_line (start : Z) (r : nat) (it : Z) : list output :=
  if Z.rem it 10 =? 0
  then [OutProgress (duration_cast_seconds (clock r - start)) it]
  else [].

(** The line the sample verification prints for [idx]: the value
    recomputed with a multiplication and an addition, and the element of
    [y]. *)
Definition verify_line (idx : Z) : output :=
  OutVerify idx
    (Binary32.fadd (Binary32.fmul a (Binary32.of_Z idx))
                   (Binary32.of_Z (N - idx)))
    (Binary32.fma a (Binary32.of_Z idx) (Binary32.of_Z (N - idx))).

(** The elapsed time the report divides by: the clock difference in
    whole microseconds, over a million, in double precision. *)
Definition measured_seconds (ticks : Z) : spec_float :=
  Binary64.fdiv (Binary64.of_Z (duration_cast_microseconds ticks))
                (Binary64.of_Z 1000000).

(** The lines of the report, latest first. *)
Definition report_lines (ticks iterations : Z) : list output :=
  [verify_line (N - 1); verify_line (N / 2); verify_line 42;
   verify_line 1; verify_line 0;
   OutPerformance (spec_gflops N iterations (measured_seconds ticks));
   OutTotalTime (measured_seconds ticks);
   OutTotalIterations iterations].

Definition banner : list output :=
  [OutVectorLength (4 * Z.of_nat lanes * 8) (4 * Z.of_nat lanes);
   OutVectorSize N; OutTargetDuration T].

(** The seconds elapsed at the [j]-th reading of the clock, the first
    reading being the start time. *)
Definition elapsed_seconds (j : nat) : Z :=
  duration_cast_seconds (clock j - clock 0).

End DriverSpec.

(** The values of the [Total iterations] and [Performance] lines. *)
Definition total_iterations_lines (out : list output) : list Z :=
  omap (fun o => match o with OutTotalIterations n => Some n | _ => None end)
       out.

Definition performance_lines (out : list output) : list spec_float :=
  omap (fun o => match o with OutPerformance g => Some g | _ => None end) out.

(** The sample scenario of the specification. *)
Definition sample_X : list spec_float := Binary32.of_Z <$> [0; 1; 2; 3; 4].
Definition sample_Y : list spec_float := Binary32.of_Z <$> [5; 4; 3; 2; 1].
Definition sample_result : list spec_float :=
  [Binary32.of_Z 5; Binary32.of_dyadic 13 (-1); Binary32.of_Z 8;
   Binary32.of_dyadic 19 (-1); Binary32.of_Z 11].
Definition sample_machine : machine spec_float :=
  Machine (<[x := sample_X]> (<[y := sample_Y]> ∅)) [].

(** A call that passes one vector as both [x] and [y]. *)
Definition alias_machine : machine spec_float :=
  Machine (<[x := [Binary32.of_Z 1]]> ∅) [].
Definition alias_machine_after : machine spec_float :=
  Machine (<[x := [Binary32.of_dyadic 7 (-1)]]> ∅) [Wr x 0; Rd x 0; Rd x 0].

(** Vectors of different lengths, and two runs of the driver on 64
    elements under a clock that advances 0.7 seconds per reading: three
    iterations on four lanes for a target of 2 seconds, one iteration on
    sixteen lanes for a target of 0. *)
Definition mismatch_machine : machine spec_float :=
  Machine (<[x := sample_X]> (<[y := [Binary32.of_Z 1]]> ∅)) [].
Definition demo_clock (k : nat) : Z := 1000 + Z.of_nat k * 700000000.
Definition demo_world : world :=
  match main_with 4 demo_clock 64 2 3 world0 with
  | Done _ w => w
  | _ => world0
  end.
Definition demo_world_wide : world :=
  match main_with 16 demo_clock 64 0 1 world0 with
  | Done _ w => w
  | _ => world0
  end.

(** ** The access log of a call, and the trace of a run *)

(** What [saxpy_loop] appends to the access log from element [j] on,
    latest access first: one chunk per trip. *)
Fixpoint loop_log (x y : positive) (lanes n fuel j : nat) : list access :=
  if decide (j < n)%nat then
    match fuel with
    | O => []
    | S fuel' =>
        loop_log x y lanes n fuel' (j + lanes)
          ++ chunk_log x y j (lanes `min` (n - j))
    end
  else [].

(** The indices loaded from, and stored to, object [o], in the order of
    the accesses. *)
Definition loads_from (o : positive) (lg : list access) : list nat :=
  omap (fun ev => match ev with
                  | Rd o' i => if decide (o' = o) then Some i else None
                  | Wr _ _ => None
                  end) (reverse lg).

Definition stores_to (o : positive) (lg : list access) : list nat :=
  omap (fun ev => match ev with
                  | Wr o' i => if decide (o' = o) then Some i else None
                  | Rd _ _ => None
                  end) (reverse lg).

(** The world after one more trip of the driver's loop, [it] trips
    completed before it. *)
Definition iteration_step (lanes : nat) (clock : nat -> Z) (N start it : Z)
    (w : world) : world :=
  World (Machine (<[y := y_result N]> (heap (mem w)))
                 (loop_log x y lanes (Z.to_nat N) (Z.to_nat N) 0
                    ++ log (mem w)))
        (S (reads w))
        (progress_line clock start (reads w) (it + 1) ++ stdout w)
        (S (calls w)).

Fixpoint after_iterations (lanes : nat) (clock : nat -> Z) (N start : Z)
    (k : nat) (w : world) : world :=
  match k with
  | O => w
  | S k' =>
      iteration_step lanes clock N start (Z.of_nat k')
                     (after_iterations lanes clock N start k' w)
  end.

(** The progress lines of an output, oldest first: elapsed seconds and
    iteration count. *)
Definition progress_values (out : list output) : list (Z * Z) :=
  omap (fun o => match o with
                 | OutProgress e i => Some (e, i)
                 | _ => None
                 end) (reverse out).

(** A run of ten iterations: a target of 7 seconds under the clock that
    advances 0.7 seconds per reading. *)
Definition demo_world_ten : world :=
  match main_with 4 demo_clock 64 7 12 world0 with
  | Done _ w => w
  | _ => world0
  end.

(** ** Vocabulary of the CPU workloads *)

(** The Fibonacci numbers, by the linear recurrence. *)
Fixpoint fib_pair (k : nat) : Z * Z :=
  match k with
  | O => (0, 1)
  | S k' => let '(a, b) := fib_pair k' in (b, a + b)
  end.

Definition Fib (k : nat) : Z := fst (fib_pair k).

(** The sum of a list of integers. *)
Definition sumZ (l : list Z) : Z := foldr Z.add 0 l.

(** Byte [i] holds [i mod 256] as a [char]. *)
Definition byte_ramp (char_signed : bool) (size : Z) : list Z :=
  (fun i => to_char char_signed (i mod 256)) <$> seqZ 0 size.

(** [0 - 1 + 2 - 3 + ...] over the integers below [i]. *)
Definition alternating_sum (i : Z) : Z :=
  if i <=? 0 then 0 else if i mod 2 =? 0 then - (i / 2) else i / 2.

(** How many of the first [k] draws take the doubling branch. *)
Fixpoint doublings (draw : nat -> Z) (k : nat) : nat :=
  match k with
  | O => O
  | S k' =>
      (doublings draw k'
       + if (30 <=? draw k')%Z && (draw k' <? 60)%Z then 1 else 0)%nat
  end.

(** A sequence of draws that takes each of the four branches. *)
Definition demo_draw (k : nat) : Z := (Z.of_nat k * 37) mod 101.

(** The list, and the square matrix, with entry [f i], [f i j]. *)
Definition tab {A} (n : nat) (f : nat -> A) : list A := f <$> seq 0 n.

Definition tab2 {A} (n : nat) (f : nat -> nat -> A) : list (list A) :=
  tab n (fun i => tab n (f i)).

Section MatrixSpec.
Context {F : Type}.
Variable fzero : F.
Variable mac : F -> F -> F -> F.
Variable draw : nat -> F.

(** The entries drawn for [a] and for [b]. *)
Definition drawn_a (n i j : nat) : F := draw (2 * (i * n + j)).
Definition drawn_b (n i j : nat) : F := draw (2 * (i * n + j) + 1).

(** The entries of [d] before row [i], column [j], in row order, the
    others zero. *)
Definition filled (d : nat -> nat -> F) (i j : nat) : nat -> nat -> F :=
  fun i' j' =>
    if decide (i' < i \/ i' = i /\ j' < j)%nat then d i' j' else fzero.

(** The terms [a[i][k] * b[k][j]] for [k] below [n], ascending,
    accumulated onto [init]. *)
Definition dot_from (init : F) (a b : nat -> nat -> F) (n i j : nat) : F :=
  foldl (fun acc k => mac acc (a i k) (b k j)) init (seq 0 n).

(** The product entry the textbook [i], [j], [k] loop nest computes. *)
Definition dot (a b : nat -> nat -> F) (n i j : nat) : F :=
  dot_from fzero a b n i j.

End MatrixSpec.

(** * Properties of the kernel *)

Section KernelProofs.
Context {F : Type}.
Variable fzero : F.
Variable fmad : F -> F -> F -> F.
Variable lanes : nat.

Implicit Types (m : machine F) (l vx vy : list F) (o : positive).

Lemma bind_eq {S A B} (c : M S A) (k : A -> M S B) (s : S) :
  bind c k s
  = match c s with
    | Done r s' => k r s'
    | Throw w s' => Throw w s'
    | Fault => Fault
    | OutOfFuel => OutOfFuel
    end.
Proof. reflexivity. Qed.

Lemma whilelo_false k op1 op2 :
  whilelo k op1 op2 false = replicate k false.
Proof.
  revert op1. induction k as [|k IH]; intros op1; simpl; [done|].
  by rewrite IH.
Qed.

Lemma whilelo_mask k op1 op2 :
  0 <= op1 -> op2 < 2 ^ 64 ->
  whilelo k op1 op2 true
  = mask (k `min` Z.to_nat (op2 - op1)) (k - Z.to_nat (op2 - op1)).
Proof.
  revert op1. induction k as [|k IH]; intros op1 H0 H2; [done|].
  cbn [whilelo andb]. destruct (Z.ltb_spec op1 op2) as [Hlt|Hge].
  - assert (wrap64 (op1 + 1) = op1 + 1) as ->.
    { unfold wrap64. apply Z.mod_small. lia. }
    rewrite IH by lia.
    replace (Z.to_nat (op2 - op1)) with (S (Z.to_nat (op2 - (op1 + 1))))
      by lia.
    done.
  - rewrite whilelo_false.
    replace (Z.to_nat (op2 - op1)) with O by lia.
    rewrite Nat.min_0_r, Nat.sub_0_r. done.
Qed.

(** Predicated load of [c] active lanes followed by [r] inactive ones. *)
Lemma svld1_inactive r p m :
  svld1_f32 fzero (replicate r false) p m = Done (replicate r fzero) m.
Proof.
  revert p. induction r as [|r IH]; intros p; [done|].
  cbn [replicate svld1_f32]. rewrite bind_eq. cbn [ret].
  rewrite bind_eq. by rewrite IH.
Qed.

Lemma svld1_mask c r o off l m :
  heap m !! o = Some l ->
  (off + c <= length l)%nat ->
  svld1_f32 fzero (mask c r) (Ptr o off) m
  = Done (take c (drop off l) ++ replicate r fzero)
         (Machine (heap m) (reverse (Rd o <$> seq off c) ++ log m)).
Proof.
  revert off m. induction c as [|c IH]; intros off m Hl Hlen.
  - unfold mask. cbn [replicate app]. rewrite svld1_inactive.
    destruct m; done.
  - unfold mask. cbn [replicate app svld1_f32].
    destruct (lookup_lt_is_Some_2 l off) as [v Hv]; [lia|].
    rewrite bind_eq. unfold load. cbn [p_obj p_off]. rewrite Hl, Hv.
    unfold ptr_add. cbn [p_obj p_off]. change (Z.to_nat 1) with 1%nat.
    replace (off + 1)%nat with (S off) by lia.
    rewrite bind_eq. fold (mask c r).
    rewrite (IH (S off)) by (cbn [heap]; first [done | lia]).
    cbn [ret heap log]. rewrite (drop_S _ _ _ Hv).
    cbn [seq fmap list_fmap]. rewrite reverse_cons, <- app_assoc. done.
Qed.

(** The zeroing multiply-add on such registers. *)
Lemma svmad_mask c r a vx vy :
  length vx = c -> length vy = c ->
  svmad_f32_z fzero fmad (mask c r) (replicate (c + r) a)
              (vx ++ replicate r fzero) (vy ++ replicate r fzero)
  = zip_with (fmad a) vx vy ++ replicate r fzero.
Proof.
  revert vx vy. induction c as [|c IH]; intros vx vy Hx Hy.
  - destruct vx, vy; try done. cbn [app zip_with Nat.add]. unfold mask.
    cbn [replicate app]. clear. induction r as [|r IH]; [done|].
    cbn [replicate svmad_f32_z]. by rewrite IH.
  - destruct vx as [|u vx], vy as [|w vy]; try done.
    unfold mask. cbn [replicate app Nat.add svmad_f32_z zip_with].
    f_equal. apply IH; by simplify_eq/=.
Qed.

(** Predicated store of [c] active lanes. *)
Lemma svst1_inactive r p data m :
  svst1_f32 (replicate r false) p data m = Done tt m.
Proof.
  revert p data. induction r as [|r IH]; intros p data; [done|].
  destruct data as [|v data]; [done|].
  cbn [replicate svst1_f32]. rewrite bind_eq. cbn [ret]. apply IH.
Qed.

Lemma svst1_mask c r o off l vals rest m :
  heap m !! o = Some l ->
  length vals = c ->
  (off + c <= length l)%nat ->
  svst1_f32 (mask c r) (Ptr o off) (vals ++ rest) m
  = Done tt (Machine (<[o := take off l ++ vals ++ drop (off + c) l]> (heap m))
                     (reverse (Wr o <$> seq off c) ++ log m)).
Proof.
  revert off l vals m. induction c as [|c IH]; intros off l vals m Hl Hv Hlen.
  - destruct vals; [|done]. unfold mask. cbn [replicate app].
    rewrite svst1_inactive, Nat.add_0_r, take_drop, insert_id by done.
    by destruct m.
  - destruct vals as [|v vals]; [done|].
    unfold mask. cbn [replicate app svst1_f32].
    rewrite bind_eq. unfold store. cbn [p_obj p_off]. rewrite Hl.
    rewrite decide_True by lia.
    unfold ptr_add. cbn [p_obj p_off]. change (Z.to_nat 1) with 1%nat.
    replace (off + 1)%nat with (S off) by lia. fold (mask c r).
    rewrite (IH (S off) (<[off := v]> l)); cbn [heap log].
    + rewrite insert_insert_eq, drop_insert_lt by lia.
      replace (S off + c)%nat with (off + S c)%nat by lia.
      rewrite (take_S_r _ _ v) by (apply list_lookup_insert_eq; lia).
      rewrite take_insert_ge by lia.
      cbn [seq fmap list_fmap]. rewrite reverse_cons, <- !app_assoc. done.
    + by rewrite lookup_insert_eq.
    + by simplify_eq/=.
    + rewrite length_insert. lia.
Qed.

(** *** The loop *)

Lemma saxpy_upto_0 a X0 Y0 : saxpy_upto fmad a X0 Y0 0 = Y0.
Proof. unfold saxpy_upto. by rewrite !take_0, drop_0. Qed.

Lemma saxpy_upto_all a X0 Y0 :
  length X0 = length Y0 ->
  saxpy_upto fmad a X0 Y0 (length X0) = zip_with (fmad a) X0 Y0.
Proof.
  intros H. unfold saxpy_upto.
  rewrite take_ge, (take_ge Y0), drop_ge, app_nil_r by lia. done.
Qed.

Lemma length_saxpy_upto a X0 Y0 j :
  length X0 = length Y0 -> length (saxpy_upto fmad a X0 Y0 j) = length Y0.
Proof.
  intros H. unfold saxpy_upto.
  rewrite length_app, length_zip_with, !length_take, length_drop. lia.
Qed.

Lemma drop_saxpy_upto a X0 Y0 j :
  length X0 = length Y0 -> (j <= length Y0)%nat ->
  drop j (saxpy_upto fmad a X0 Y0 j) = drop j Y0.
Proof.
  intros H Hj. unfold saxpy_upto. apply drop_app_length'.
  rewrite length_zip_with, !length_take. lia.
Qed.

(** One chunk of [c] elements at [j], read from the current contents and
    written back, moves the frontier to [j + c]. *)
Lemma saxpy_upto_step a X0 Y0 Xc j c :
  length X0 = length Y0 -> (j + c <= length Y0)%nat ->
  drop j Xc = drop j X0 ->
  take j (saxpy_upto fmad a X0 Y0 j)
    ++ zip_with (fmad a) (take c (drop j Xc))
                (take c (drop j (saxpy_upto fmad a X0 Y0 j)))
    ++ drop (j + c) (saxpy_upto fmad a X0 Y0 j)
  = saxpy_upto fmad a X0 Y0 (j + c).
Proof.
  intros H Hj HX.
  assert (length (zip_with (fmad a) (take j X0) (take j Y0)) = j) as Hz.
  { rewrite length_zip_with, !length_take. lia. }
  rewrite HX, drop_saxpy_upto by lia.
  unfold saxpy_upto.
  rewrite take_app_length' by done.
  replace (j + c)%nat with
    (length (zip_with (fmad a) (take j X0) (take j Y0)) + c)%nat at 1
    by lia.
  rewrite drop_app_add, drop_drop, app_assoc. f_equal.
  rewrite <- (take_take_drop X0 j c), <- (take_take_drop Y0 j c).
  rewrite zip_with_app; [done|]. rewrite !length_take. lia.
Qed.

Lemma kernel_access_rd x y n o j c :
  o = x \/ o = y -> (j + c <= n)%nat ->
  Forall (kernel_access x y n) (reverse (Rd o <$> seq j c)).
Proof.
  intros Ho Hj. apply Forall_reverse, Forall_fmap, Forall_seq.
  intros i Hi. split; [done | lia].
Qed.

Lemma kernel_access_wr x y n j c :
  (j + c <= n)%nat ->
  Forall (kernel_access x y n) (reverse (Wr y <$> seq j c)).
Proof.
  intros Hj. apply Forall_reverse, Forall_fmap, Forall_seq.
  intros i Hi. split; [done | lia].
Qed.

Lemma saxpy_loop_eq fuel a x_ptr y_ptr n i :
  saxpy_loop fzero fmad lanes fuel a x_ptr y_ptr n i
  = if i <? n then
      match fuel with
      | O => out_of_fuel
      | S fuel' =>
          let pg := svwhilelt_b32 lanes i n in
          let! vec_x := svld1_f32 fzero pg (ptr_add x_ptr i) in
          let! vec_y := svld1_f32 fzero pg (ptr_add y_ptr i) in
          let result :=
            svmad_f32_z fzero fmad pg (svdup_n_f32 lanes a) vec_x vec_y in
          svst1_f32 pg (ptr_add y_ptr i) result ;;
          saxpy_loop fzero fmad lanes fuel' a x_ptr y_ptr n
                     (wrap64 (i + svcntw lanes))
      end
    else ret tt.
Proof. by destruct fuel. Qed.

Lemma max_size_lt : max_size < 2 ^ 62.
Proof. by vm_compute. Qed.

Lemma chunk_log_ok x y n j c :
  (j + c <= n)%nat -> Forall (kernel_access x y n) (chunk_log x y j c).
Proof.
  intros H. unfold chunk_log. rewrite !Forall_app. split_and!.
  - by apply kernel_access_wr.
  - apply kernel_access_rd; [by right | done].
  - apply kernel_access_rd; [by left | done].
Qed.

Section Loop.
Variables (a : F) (x y : positive) (X0 Y0 : list F) (n : nat).
Hypothesis HX0 : length X0 = n.
Hypothesis HY0 : length Y0 = n.
Hypothesis Hmax : Z.of_nat n <= max_size.
Hypothesis Hl1 : (1 <= lanes)%nat.
Hypothesis Hl64 : Z.of_nat lanes < 2 ^ 64.
Hypothesis Halias : x = y -> X0 = Y0.

Lemma saxpy_loop_step fuel j m :
  (j < n)%nat -> loop_inv fmad lanes a x y X0 Y0 n j m ->
  saxpy_loop fzero fmad lanes (S fuel) a (Ptr x 0) (Ptr y 0)
             (Z.of_nat n) (Z.of_nat j) m
  = saxpy_loop fzero fmad lanes fuel a (Ptr x 0) (Ptr y 0)
               (Z.of_nat n) (Z.of_nat (j + lanes))
               (after_step fmad lanes a x y X0 Y0 n j m).
Proof.
  intros Hlt (Hj & (Xc & Hx & HXc & Hdrop) & Hy).
  pose proof max_size_lt as Hms.
  rewrite saxpy_loop_eq.
  replace (Z.of_nat j <? Z.of_nat n) with true by (symmetry; lia).
  rewrite Nat.min_l in Hy, Hdrop by lia.
  unfold after_step. set (c := (lanes `min` (n - j))%nat).
  assert (j + c <= n)%nat as Hc by lia.
  cbv zeta. unfold svwhilelt_b32.
  rewrite whilelo_mask by lia.
  replace (Z.to_nat (Z.of_nat n - Z.of_nat j)) with (n - j)%nat by lia.
  fold c. set (r := (lanes - (n - j))%nat).
  unfold ptr_add. cbn [p_obj p_off Nat.add]. rewrite Nat2Z.id.
  (* the two loads *)
  rewrite bind_eq, (svld1_mask c r x j Xc) by first [done | lia].
  rewrite bind_eq,
    (svld1_mask c r y j (saxpy_upto fmad a X0 Y0 j)); cbn [heap log];
    [|done|rewrite length_saxpy_upto; lia].
  (* the multiply-add *)
  unfold svdup_n_f32.
  replace (replicate lanes a) with (replicate (c + r) a)
    by (f_equal; lia).
  rewrite svmad_mask;
    [|rewrite length_take, length_drop; lia
     |rewrite length_take, length_drop, length_saxpy_upto; lia].
  (* the store *)
  rewrite bind_eq,
    (svst1_mask c r y j (saxpy_upto fmad a X0 Y0 j)); cbn [heap log];
    [|done
     |rewrite length_zip_with, !length_take, !length_drop,
        length_saxpy_upto; lia
     |rewrite length_saxpy_upto; lia].
  rewrite saxpy_upto_step by first [done | lia].
  (* the next cursor does not wrap *)
  assert (wrap64 (Z.of_nat j + svcntw lanes) = Z.of_nat (j + lanes)) as ->.
  { unfold wrap64, svcntw. rewrite Z.mod_small; lia. }
  unfold chunk_log. by rewrite <- !app_assoc.
Qed.

Lemma loop_inv_step j m :
  (j < n)%nat -> loop_inv fmad lanes a x y X0 Y0 n j m ->
  loop_inv fmad lanes a x y X0 Y0 n (j + lanes)
           (after_step fmad lanes a x y X0 Y0 n j m).
Proof.
  intros Hlt (Hj & (Xc & Hx & HXc & Hdrop) & Hy).
  rewrite Nat.min_l in Hdrop by lia.
  unfold after_step. set (c := (lanes `min` (n - j))%nat).
  assert ((j + lanes) `min` n = j + c)%nat as Hmin by lia.
  split_and!; [lia| |]; cbn [heap]; rewrite Hmin.
  - destruct (decide (x = y)) as [Heq|Hne].
    + exists (saxpy_upto fmad a X0 Y0 (j + c)). subst y.
      rewrite lookup_insert_eq, length_saxpy_upto by lia.
      split_and!; [done..|].
      rewrite drop_saxpy_upto by lia. by rewrite (Halias eq_refl).
    + exists Xc. rewrite lookup_insert_ne by done.
      split_and!; [done..|].
      rewrite <- !(drop_drop _ c j), Hdrop. done.
  - by rewrite lookup_insert_eq.
Qed.

Lemma saxpy_loop_exit fuel j m :
  (n <= j)%nat ->
  saxpy_loop fzero fmad lanes fuel a (Ptr x 0) (Ptr y 0)
             (Z.of_nat n) (Z.of_nat j) m = Done tt m.
Proof.
  intros H. rewrite saxpy_loop_eq.
  by replace (Z.of_nat j <? Z.of_nat n) with false by (symmetry; lia).
Qed.

(** With one unit of fuel per register-full of elements left, the
    loop returns, [y] holds the result and every access is in bounds. *)
Lemma saxpy_loop_correct fuel j m :
  loop_inv fmad lanes a x y X0 Y0 n j m ->
  (n - j <= fuel * lanes)%nat ->
  exists evs,
    saxpy_loop fzero fmad lanes fuel a (Ptr x 0) (Ptr y 0)
               (Z.of_nat n) (Z.of_nat j) m
    = Done tt (Machine (<[y := saxpy_upto fmad a X0 Y0 n]> (heap m))
                       (evs ++ log m))
    /\ Forall (kernel_access x y n) evs.
Proof.
  revert j m. induction fuel as [|fuel IH]; intros j m Hinv Hfuel.
  - rewrite saxpy_loop_exit by lia.
    destruct Hinv as (_ & _ & Hy). rewrite Nat.min_r in Hy by lia.
    exists []. rewrite insert_id by done. by destruct m.
  - destruct (decide (j < n)%nat) as [Hlt|Hge].
    + rewrite saxpy_loop_step by done.
      destruct (IH (j + lanes)%nat (after_step fmad lanes a x y X0 Y0 n j m))
        as (evs & -> & Hevs);
        [by apply loop_inv_step | nia |].
      unfold after_step. cbn [heap log]. rewrite insert_insert_eq.
      eexists. split; [by rewrite app_assoc|].
      apply Forall_app. split; [done|]. apply chunk_log_ok. lia.
    + rewrite saxpy_loop_exit by lia.
      destruct Hinv as (_ & _ & Hy). rewrite Nat.min_r in Hy by lia.
      exists []. rewrite insert_id by done. by destruct m.
Qed.

(** With less fuel the loop is cut: it runs exactly one body per
    register-full of elements. *)
Lemma saxpy_loop_out_of_fuel fuel j m :
  loop_inv fmad lanes a x y X0 Y0 n j m ->
  (fuel * lanes < n - j)%nat ->
  saxpy_loop fzero fmad lanes fuel a (Ptr x 0) (Ptr y 0)
             (Z.of_nat n) (Z.of_nat j) m = OutOfFuel.
Proof.
  revert j m. induction fuel as [|fuel IH]; intros j m Hinv Hfuel.
  - rewrite saxpy_loop_eq.
    by replace (Z.of_nat j <? Z.of_nat n) with true by (symmetry; lia).
  - rewrite saxpy_loop_step by first [done | lia].
    apply IH; [apply loop_inv_step; first [done | lia] | nia].
Qed.

End Loop.

(** *** The kernel as a whole *)

Lemma sve_saxpy_sizes fuel a x y X0 Y0 m :
  heap m !! x = Some X0 -> heap m !! y = Some Y0 ->
  sve_saxpy fzero fmad lanes fuel a x y m
  = if decide (length X0 = length Y0)
    then saxpy_loop fzero fmad lanes fuel a (Ptr x 0) (Ptr y 0)
                    (Z.of_nat (length X0)) 0 m
    else Throw "Vector sizes must be equal." m.
Proof.
  intros Hx Hy. unfold sve_saxpy, vec_size, vec_data.
  rewrite bind_eq, Hx, bind_eq, Hy.
  destruct (decide (length X0 = length Y0)) as [He|Hne].
  - by replace (Z.of_nat (length X0) =? Z.of_nat (length Y0)) with true
      by (symmetry; lia).
  - by replace (Z.of_nat (length X0) =? Z.of_nat (length Y0)) with false
      by (symmetry; lia).
Qed.

Lemma loop_inv_0 a x y X0 Y0 m :
  heap m !! x = Some X0 -> heap m !! y = Some Y0 ->
  loop_inv fmad lanes a x y X0 Y0 (length X0) 0 m.
Proof.
  intros Hx Hy. split_and!; [by left | by exists X0 |].
  by rewrite Nat.min_0_l, saxpy_upto_0.
Qed.

Lemma sve_saxpy_correct fuel a x y X0 Y0 m :
  heap m !! x = Some X0 -> heap m !! y = Some Y0 ->
  length X0 = length Y0 ->
  Z.of_nat (length X0) <= max_size ->
  (1 <= lanes)%nat -> Z.of_nat lanes < 2 ^ 64 ->
  (length X0 <= fuel * lanes)%nat ->
  exists evs,
    sve_saxpy fzero fmad lanes fuel a x y m
    = Done tt (Machine (<[y := zip_with (fmad a) X0 Y0]> (heap m))
                       (evs ++ log m))
    /\ Forall (kernel_access x y (length X0)) evs.
Proof.
  intros Hx Hy Hlen Hmax Hl1 Hl64 Hfuel.
  rewrite (sve_saxpy_sizes _ _ _ _ X0 Y0), decide_True by done.
  rewrite <- (saxpy_upto_all a X0 Y0) by done.
  change 0 with (Z.of_nat 0).
  apply (saxpy_loop_correct a x y X0 Y0 (length X0)); try done; try lia.
  - intros ->. congruence.
  - by apply loop_inv_0.
Qed.

Lemma sve_saxpy_out_of_fuel fuel a x y X0 Y0 m :
  heap m !! x = Some X0 -> heap m !! y = Some Y0 ->
  length X0 = length Y0 ->
  Z.of_nat (length X0) <= max_size ->
  (1 <= lanes)%nat -> Z.of_nat lanes < 2 ^ 64 ->
  (fuel * lanes < length X0)%nat ->
  sve_saxpy fzero fmad lanes fuel a x y m = OutOfFuel.
Proof.
  intros Hx Hy Hlen Hmax Hl1 Hl64 Hfuel.
  rewrite (sve_saxpy_sizes _ _ _ _ X0 Y0), decide_True by done.
  change 0 with (Z.of_nat 0).
  apply (saxpy_loop_out_of_fuel a x y X0 Y0 (length X0)); try done; try lia.
  - intros ->. congruence.
  - by apply loop_inv_0.
Qed.

(** On vectors of length 0 no access is in bounds. *)
Lemma kernel_access_0 x y evs :
  Forall (kernel_access x y 0) evs -> evs = [].
Proof.
  destruct evs as [|[o i|o i] evs]; [done|..];
    intros H; apply Forall_cons in H as [H _]; simpl in H; lia.
Qed.

End KernelProofs.

(** * Exact binary32 arithmetic on small integers *)

Section FloatProofs.

(** Shifts by a [positive] count as iterations over [nat]. *)
Lemma iter_pos_nat {A} (f : A -> A) (k : positive) (v : A) :
  SpecFloat.iter_pos f k v = Nat.iter (Pos.to_nat k) f v.
Proof.
  revert v. induction k as [k IH|k IH|]; intros v; cbn [SpecFloat.iter_pos].
  - rewrite !IH, Pos2Nat.inj_xI, <- Nat.iter_add, <- Nat.iter_succ_r.
    f_equal. lia.
  - rewrite !IH, Pos2Nat.inj_xO, <- Nat.iter_add. f_equal. lia.
  - done.
Qed.

Lemma shl_align_nat mx ex ex' :
  shl_align mx ex ex'
  = (Nat.iter (Z.to_nat (ex - ex')) xO mx, Z.min ex ex').
Proof.
  unfold shl_align. destruct (ex' - ex) as [|d|d] eqn:E.
  - replace (Z.to_nat (ex - ex')) with O by lia.
    by rewrite Z.min_l by lia.
  - replace (Z.to_nat (ex - ex')) with O by lia.
    by rewrite Z.min_l by lia.
  - rewrite Pos2Nat.inj_iter. fold (Nat.iter (Pos.to_nat d) xO mx).
    replace (Z.to_nat (ex - ex')) with (Pos.to_nat d) by lia.
    by rewrite Z.min_r by lia.
Qed.

Lemma shr_nat mrs e n :
  shr mrs e n = (Nat.iter (Z.to_nat n) shr_1 mrs, e + Z.max n 0).
Proof.
  unfold shr. destruct n as [|k|k]; cbn [Z.to_nat Nat.iter nat_rect].
  - by rewrite Z.add_0_r.
  - by rewrite iter_pos_nat, Z.max_l by lia.
  - by rewrite Z.max_r, Z.add_0_r by lia.
Qed.

(** Mantissas with [k] trailing zeros. *)
Lemma digits2_shl (p : positive) (k : nat) :
  Zpos (digits2_pos (Nat.iter k xO p)) = Zpos (digits2_pos p) + Z.of_nat k.
Proof.
  induction k as [|k IH]; [cbn; lia|].
  rewrite Nat2Z.inj_succ, Nat.iter_succ. cbn [digits2_pos].
  rewrite Pos2Z.inj_succ. lia.
Qed.

Lemma shl_value (p : positive) (k : nat) :
  Zpos (Nat.iter k xO p) = Zpos p * 2 ^ Z.of_nat k.
Proof.
  induction k as [|k IH]; [cbn; lia|].
  rewrite Nat2Z.inj_succ, Z.pow_succ_r, Nat.iter_succ by lia. lia.
Qed.

Lemma shl_add (p q : positive) (k : nat) :
  (Nat.iter k xO p + Nat.iter k xO q)%positive = Nat.iter k xO (p + q)%positive.
Proof.
  induction k as [|k IH]; [done|].
  rewrite !Nat.iter_succ, <- IH. done.
Qed.

Lemma shr_shl (q : positive) (k : nat) :
  Nat.iter k shr_1 (Build_shr_record (Zpos (Nat.iter k xO q)) false false)
  = Build_shr_record (Zpos q) false false.
Proof.
  induction k as [|k IH]; [done|].
  rewrite Nat.iter_succ_r, Nat.iter_succ. cbn [shr_1 orb]. done.
Qed.

Lemma digits2_lower (p : positive) :
  2 ^ (Zpos (digits2_pos p) - 1) <= Zpos p.
Proof.
  induction p as [p IH|p IH|]; cbn [digits2_pos]; [| |done].
  - rewrite Pos2Z.inj_succ.
    replace (Z.succ (Zpos (digits2_pos p)) - 1)
      with (Z.succ (Zpos (digits2_pos p) - 1)) by lia.
    rewrite Z.pow_succ_r by lia. lia.
  - rewrite Pos2Z.inj_succ.
    replace (Z.succ (Zpos (digits2_pos p)) - 1)
      with (Z.succ (Zpos (digits2_pos p) - 1)) by lia.
    rewrite Z.pow_succ_r by lia. lia.
Qed.

Lemma digits2_bound (p : positive) (k : Z) :
  0 <= k -> Zpos p < 2 ^ k -> Zpos (digits2_pos p) <= k.
Proof.
  intros Hk Hp. destruct (Z.le_gt_cases (Zpos (digits2_pos p)) k) as [|Hgt];
    [done|].
  pose proof (digits2_lower p).
  pose proof (Z.pow_le_mono_r 2 k (Zpos (digits2_pos p) - 1)). lia.
Qed.

(** Rounding a binary32 mantissa of 24 significant bits followed by [k]
    zeros is exact. *)
Lemma binary_round_aux_exact (q : positive) (k : nat) (e : Z) :
  Zpos (digits2_pos q) = 24 ->
  -149 <= e + Z.of_nat k <= 104 ->
  binary_round_aux 24 128 false (Zpos (Nat.iter k xO q)) e loc_Exact
  = S754_finite false q (e + Z.of_nat k).
Proof.
  intros Hq He. unfold binary_round_aux, shr_fexp.
  cbn [Zdigits2 shr_record_of_loc]. rewrite digits2_shl, Hq.
  assert (fexp 24 128 (24 + Z.of_nat k + e) - e = Z.of_nat k) as ->.
  { unfold fexp, emin. lia. }
  rewrite shr_nat, Nat2Z.id, shr_shl, Z.max_l by lia.
  cbn [shr_m loc_of_shr_record round_nearest_even Zdigits2
       shr_record_of_loc].
  rewrite Hq.
  assert (fexp 24 128 (24 + (e + Z.of_nat k)) - (e + Z.of_nat k) = 0) as ->.
  { unfold fexp, emin. lia. }
  cbn [shr shr_m].
  by replace (e + Z.of_nat k <=? 128 - 24) with true by (symmetry; lia).
Qed.

(** The float of a positive integer below 2^24: the integer shifted to
    24 significant bits. *)
Lemma of_Z_pos (p : positive) :
  Zpos p < 2 ^ 24 ->
  Binary32.of_Z (Zpos p)
  = S754_finite false
      (Nat.iter (Z.to_nat (24 - Zpos (digits2_pos p))) xO p)
      (Zpos (digits2_pos p) - 24).
Proof.
  intros Hp. pose proof (digits2_bound p 24 ltac:(lia) Hp) as Hd.
  unfold Binary32.of_Z, Binary32.prec, Binary32.emax.
  cbn [binary_normalize]. unfold binary_round.
  assert (fexp 24 128 (Zpos (digits2_pos p) + 0) = Zpos (digits2_pos p) - 24)
    as ->.
  { unfold fexp, emin. lia. }
  rewrite shl_align_nat, Z.min_r by lia.
  replace (0 - (Zpos (digits2_pos p) - 24)) with (24 - Zpos (digits2_pos p))
    by lia.
  set (q := Nat.iter _ xO p).
  change (Zpos q) with (Zpos (Nat.iter 0 xO q)).
  rewrite binary_round_aux_exact.
  - f_equal. lia.
  - subst q. rewrite digits2_shl. lia.
  - lia.
Qed.

Lemma of_Z_exact (z : Z) :
  0 <= z < 2 ^ 24 -> SF2Z (Binary32.of_Z z) = Some z.
Proof.
  intros Hz. destruct z as [|p|p]; [done| |lia].
  pose proof (digits2_bound p 24 ltac:(lia) ltac:(lia)) as Hd.
  rewrite of_Z_pos by lia. unfold SF2Z.
  destruct (Z.leb_spec 0 (Zpos (digits2_pos p) - 24)) as [H0|H0].
  - replace (Zpos (digits2_pos p) - 24) with 0 by lia.
    replace (Z.to_nat (24 - Zpos (digits2_pos p))) with O by lia.
    cbn [Nat.iter nat_rect cond_Zopp]. f_equal. lia.
  - rewrite shl_value, Z2Nat.id by lia.
    replace (- (Zpos (digits2_pos p) - 24)) with (24 - Zpos (digits2_pos p))
      by lia.
    rewrite Z.mod_mul by lia. cbn [Z.eqb cond_Zopp].
    by rewrite Z.div_mul by lia.
Qed.

(** Incrementing the float of [z] gives the float of [z + 1], as long as
    24 bits hold it. *)
Lemma finc_of_Z (z : Z) :
  0 <= z -> z + 1 < 2 ^ 24 ->
  Binary32.finc (Binary32.of_Z z) = Binary32.of_Z (z + 1).
Proof.
  intros H0 H1. destruct z as [|p|p]; [done| |lia].
  pose proof (digits2_bound p 24 ltac:(lia) ltac:(lia)) as Hd.
  pose proof (digits2_bound (p + 1) 24 ltac:(lia) ltac:(lia)) as Hd'.
  unfold Binary32.finc, Binary32.fadd.
  change (Binary32.of_Z 1)
    with (S754_finite false (Nat.iter 23 xO 1%positive) (-23)).
  rewrite of_Z_pos by lia.
  change (Zpos p + 1) with (Zpos (p + 1)). rewrite of_Z_pos by lia.
  set (d := Zpos (digits2_pos p)) in *.
  set (d' := Zpos (digits2_pos (p + 1))) in *.
  assert (1 <= d) by (subst d; lia).
  assert (1 <= d') by (subst d'; lia).
  unfold SFadd, Binary32.prec, Binary32.emax.
  rewrite !shl_align_nat. cbn [fst cond_Zopp].
  rewrite (Z.min_r (d - 24) (-23)) by lia.
  rewrite <- Nat.iter_add.
  replace (Z.to_nat (d - 24 - -23) + Z.to_nat (24 - d))%nat with 23%nat
    by lia.
  replace (Z.to_nat (-23 - -23)) with O by lia.
  change (Nat.iter 0 xO (Nat.iter 23 xO 1%positive))
    with (Nat.iter 23 xO 1%positive).
  rewrite <- Pos2Z.inj_add, shl_add.
  cbn [binary_normalize]. unfold binary_round.
  rewrite digits2_shl. fold d'.
  assert (fexp 24 128 (d' + Z.of_nat 23 + -23) = d' - 24) as ->.
  { unfold fexp, emin. lia. }
  rewrite shl_align_nat, Z.min_l by lia.
  replace (Z.to_nat (-23 - (d' - 24))) with O by lia.
  change (Nat.iter 0 xO (Nat.iter 23 xO (p + 1)%positive))
    with (Nat.iter 23 xO (p + 1)%positive).
  replace 23%nat with (Z.to_nat (d' - 1) + Z.to_nat (24 - d'))%nat by lia.
  rewrite Nat.iter_add, binary_round_aux_exact.
  - f_equal. lia.
  - rewrite digits2_shl. fold d'. lia.
  - lia.
Qed.

End FloatProofs.

(** * Properties of the driver *)

Section DriverProofs.
Variable lanes : nat.
Variable clock : nat -> Z.
Variable N : Z.
Variable T : Z.

Lemma iota_fill_ramp (l : list spec_float) (z : Z) :
  0 <= z -> z + Z.of_nat (length l) < 2 ^ 24 ->
  iota_fill l (Binary32.of_Z z)
  = Binary32.of_Z <$> seqZ z (Z.of_nat (length l)).
Proof.
  revert z. induction l as [|v l IH]; intros z H0 H1; [done|].
  cbn [iota_fill length]. rewrite seqZ_cons by lia.
  rewrite finc_of_Z by (cbn [length] in H1; lia).
  rewrite IH by (cbn [length] in H1; lia).
  cbn [fmap list_fmap].
  replace (Z.pred (Z.of_nat (S (length l)))) with (Z.of_nat (length l))
    by lia.
  done.
Qed.

Lemma fill_y_descending (k : nat) (i : Z) (m : machine spec_float)
      (l : list spec_float) :
  heap m !! y = Some l ->
  Z.of_nat (length l) = N -> N < 2 ^ 64 ->
  0 <= i -> i + Z.of_nat k = N ->
  fill_y N k i m
  = Done tt (Machine (<[y := take (Z.to_nat i) l
                            ++ ((fun j => Binary32.of_Z (N - j))
                                  <$> seqZ i (Z.of_nat k))]> (heap m))
                     (log m)).
Proof.
  revert i m l. induction k as [|k IH]; intros i m l Hy Hl HN Hi Hk.
  - cbn [fill_y ret]. rewrite seqZ_nil, app_nil_r, take_ge by lia.
    rewrite insert_id by done. by destruct m.
  - cbn [fill_y]. rewrite bind_eq. unfold vec_set. rewrite Hy.
    replace ((0 <=? i) && (i <? Z.of_nat (length l))) with true
      by (symmetry; apply andb_true_intro; lia).
    assert (wrap64 (N - i) = N - i) as ->.
    { unfold wrap64. apply Z.mod_small. lia. }
    assert (wrap64 (i + 1) = i + 1) as ->.
    { unfold wrap64. apply Z.mod_small. lia. }
    set (v := Binary32.of_Z (N - i)).
    rewrite (IH (i + 1) _ (<[Z.to_nat i := v]> l)); cbn [heap log].
    + rewrite insert_insert_eq. do 3 f_equal.
      rewrite (seqZ_cons i) by lia. cbn [fmap list_fmap].
      replace (Z.to_nat (i + 1)) with (S (Z.to_nat i)) by lia.
      rewrite (take_S_r _ _ v) by (apply list_lookup_insert_eq; lia).
      rewrite take_insert_ge, <- app_assoc by lia.
      replace (Z.pred (Z.of_nat (S k))) with (Z.of_nat k) by lia.
      done.
    + by rewrite lookup_insert_eq.
    + rewrite length_insert. lia.
    + done.
    + lia.
    + lia.
Qed.

Lemma length_ramp : 0 <= N -> Z.of_nat (length (ramp N)) = N.
Proof. intros H. unfold ramp. rewrite length_fmap, length_seqZ. lia. Qed.

Lemma length_descending : 0 <= N -> Z.of_nat (length (descending N)) = N.
Proof.
  intros H. unfold descending. rewrite length_fmap, length_seqZ. lia.
Qed.

Lemma main_init_correct (w : world) :
  0 <= N < 2 ^ 24 ->
  exists w1,
    main_init lanes N T w = Done tt w1
    /\ initialised N w1
    /\ log (mem w1) = log (mem w)
    /\ reads w1 = reads w /\ calls w1 = calls w
    /\ stdout w1 = [OutVectorLength (4 * Z.of_nat lanes * 8)
                                    (4 * Z.of_nat lanes);
                    OutVectorSize N; OutTargetDuration T] ++ stdout w.
Proof.
  intros HN. unfold main_init.
  do 3 (rewrite bind_eq; unfold print at 1; cbn [mem reads stdout calls]).
  do 3 (rewrite bind_eq; unfold on_mem at 1, vec_new at 1;
        cbn [mem reads stdout calls heap log]).
  rewrite bind_eq. unfold on_mem at 1, iota.
  cbn [mem reads stdout calls heap log].
  rewrite lookup_insert_ne, lookup_insert_ne, lookup_insert_eq by done.
  cbn [mem reads stdout calls heap log].
  rewrite bind_eq. unfold on_mem at 1.
  cbn [mem reads stdout calls heap log].
  rewrite (fill_y_descending _ _ _ (replicate (Z.to_nat N) Binary32.fzero));
    cbn [heap log].
  2:{ by rewrite lookup_insert_ne, lookup_insert_ne, lookup_insert_eq. }
  2:{ rewrite length_replicate. lia. }
  2:{ pose proof (Z.pow_lt_mono_r 2 24 64). lia. }
  2,3: lia.
  unfold on_mem, vec_assign. cbn [mem reads stdout calls heap log].
  rewrite lookup_insert_eq. cbn [mem reads stdout calls heap log].
  eexists. split; [done|]. unfold initialised.
  cbn [mem reads stdout calls heap log]. split_and!; try done.
  - rewrite !lookup_insert_ne, lookup_insert_eq by done.
    pose proof (iota_fill_ramp (replicate (Z.to_nat N) Binary32.fzero) 0)
      as Hiota.
    change (Binary32.of_Z 0) with Binary32.fzero in Hiota at 1.
    rewrite Hiota by (try rewrite length_replicate; lia).
    rewrite length_replicate, Z2Nat.id by lia. done.
  - rewrite lookup_insert_eq, Z2Nat.id by lia. done.
  - by rewrite lookup_insert_ne, lookup_insert_eq.
Qed.

(** *** The timed loop *)

Lemma progress_line_ok start r it :
  Forall is_progress (progress_line clock start r it).
Proof.
  unfold progress_line. destruct (Z.rem it 10 =? 0); by repeat constructor.
Qed.

Hypothesis HN : 43 <= N < 2 ^ 24.
Hypothesis Hl1 : (1 <= lanes)%nat.
Hypothesis Hl64 : Z.of_nat lanes < 2 ^ 64.

Lemma N_max_size : N <= max_size.
Proof. assert (2 ^ 24 <= max_size) by (by vm_compute). lia. Qed.

(** One body of the [while (true)] loop. *)
Lemma main_loop_body fuel start it w :
  initialised N w ->
  exists evs,
    let w' := World (Machine (<[y := (y_result N)]> (heap (mem w)))
                             (evs ++ log (mem w)))
                    (S (reads w))
                    (progress_line clock start (reads w) (it + 1) ++ stdout w)
                    (S (calls w)) in
    main_loop lanes clock N T (S fuel) start it w
    = (if 2 ^ 63 - 1 <=? it then Fault
       else if T <=? duration_cast_seconds (clock (reads w) - start)
       then Done (it + 1) w'
       else main_loop lanes clock N T fuel start (it + 1) w')
    /\ Forall (kernel_access x y (Z.to_nat N)) evs.
Proof.
  intros (Hx & Hyo & Hy). pose proof N_max_size as Hmax.
  cbn [main_loop].
  (* y = y_original *)
  rewrite bind_eq. unfold on_mem at 1, vec_assign. rewrite Hyo.
  cbn [mem reads stdout calls heap log].
  (* sve_saxpy(a, x, y) *)
  rewrite bind_eq. unfold call_sve_saxpy, on_mem.
  cbn [mem reads stdout calls heap log].
  destruct (sve_saxpy_correct Binary32.fzero Binary32.fma lanes
              (Z.to_nat N) a x y (ramp N) (descending N)
              (Machine (<[y := descending N]> (heap (mem w))) (log (mem w))))
    as (evs & Hrun & Hevs); cbn [heap log].
  { by rewrite lookup_insert_ne. }
  { by rewrite lookup_insert_eq. }
  { pose proof length_ramp. pose proof length_descending. lia. }
  { rewrite length_ramp; lia. }
  { done. }
  { done. }
  { pose proof length_ramp. nia. }
  rewrite Hrun. cbn [mem reads stdout calls heap log].
  rewrite insert_insert_eq.
  exists evs. split.
  2:{ replace (Z.to_nat N) with (length (ramp N))
        by (pose proof length_ramp; lia). done. }
  (* iterations++ *)
  destruct (2 ^ 63 - 1 <=? it); [done|].
  rewrite bind_eq. unfold now at 1. cbn [mem reads stdout calls heap log].
  rewrite Z.geb_leb.
  cbv zeta. unfold progress_line.
  destruct (Z.rem (it + 1) 10 =? 0);
    rewrite bind_eq; unfold print, ret; cbn [mem reads stdout calls app];
    by destruct (T <=? _).
Qed.

Lemma initialised_after_body w evs r out c :
  initialised N w ->
  initialised N (World (Machine (<[y := (y_result N)]> (heap (mem w))) evs)
                     r out c).
Proof.
  intros (Hx & Hyo & Hy). unfold initialised. cbn [mem heap].
  by rewrite !lookup_insert_ne, lookup_insert_eq by done.
Qed.

(** Whenever the loop returns it has called the kernel at least once,
    and its count is the number of calls. *)
Lemma main_loop_done fuel :
  forall start it w it' w',
    initialised N w ->
    main_loop lanes clock N T fuel start it w = Done it' w' ->
    (calls w < calls w')%nat
    /\ it' = it + Z.of_nat (calls w' - calls w)
    /\ reads w' = (reads w + (calls w' - calls w))%nat
    /\ heap (mem w') = <[y := (y_result N)]> (heap (mem w))
    /\ (exists evs, log (mem w') = evs ++ log (mem w)
                    /\ Forall (kernel_access x y (Z.to_nat N)) evs)
    /\ (exists prog, stdout w' = prog ++ stdout w
                     /\ Forall is_progress prog).
Proof.
  induction fuel as [|fuel IH]; intros start it w it' w' Hinit Hrun;
    [done|].
  destruct (main_loop_body fuel start it w Hinit) as (evs & Hbody & Hevs).
  cbv zeta in Hbody. rewrite Hbody in Hrun. clear Hbody.
  destruct (2 ^ 63 - 1 <=? it); [done|].
  destruct (T <=? _).
  - simplify_eq. cbn [mem reads stdout calls heap log].
    split_and!; [lia | lia | lia | done | by exists evs |].
    eexists. split; [done | apply progress_line_ok].
  - apply IH in Hrun; [|by apply initialised_after_body].
    cbn [mem reads stdout calls heap log] in Hrun.
    destruct Hrun as (Hc & Hit & Hr & Hheap & (evs' & Hlog & Hevs')
                      & (prog & Hout & Hprog)).
    split_and!; [lia | lia | lia | | |].
    + by rewrite Hheap, insert_insert_eq.
    + exists (evs' ++ evs). rewrite Hlog, app_assoc.
      split; [done | by apply Forall_app].
    + eexists. rewrite Hout, app_assoc. split; [done|].
      apply Forall_app. split; [done | apply progress_line_ok].
Qed.

(** The loop returns at the first reading that reaches the target:
    after [k] readings below it, the loop has run [k + 1] bodies. *)
Lemma main_loop_run k :
  forall fuel start it w,
    initialised N w -> 0 <= it -> it + Z.of_nat k + 1 < 2 ^ 63 ->
    (forall j, (j < k)%nat ->
       duration_cast_seconds (clock (reads w + j) - start) < T) ->
    T <= duration_cast_seconds (clock (reads w + k) - start) ->
    (k < fuel)%nat ->
    exists w' evs prog,
      main_loop lanes clock N T fuel start it w
      = Done (it + Z.of_nat k + 1) w'
      /\ heap (mem w') = <[y := (y_result N)]> (heap (mem w))
      /\ log (mem w') = evs ++ log (mem w)
      /\ Forall (kernel_access x y (Z.to_nat N)) evs
      /\ reads w' = (reads w + k + 1)%nat
      /\ calls w' = (calls w + k + 1)%nat
      /\ stdout w' = prog ++ stdout w
      /\ Forall is_progress prog.
Proof.
  induction k as [|k IH]; intros fuel start it w Hinit Hit Hov Hlow Hstop Hf;
    (destruct fuel as [|fuel]; [lia|]);
    destruct (main_loop_body fuel start it w Hinit)
      as (evs & Hbody & Hevs); cbv zeta in Hbody; rewrite Hbody;
    replace (2 ^ 63 - 1 <=? it) with false by (symmetry; lia).
  - rewrite Nat.add_0_r in Hstop.
    replace (T <=? duration_cast_seconds (clock (reads w) - start))
      with true by (symmetry; lia).
    replace (it + Z.of_nat 0 + 1) with (it + 1) by lia.
    eexists _, evs, _. split; [reflexivity|].
    cbn [mem reads stdout calls heap log].
    split_and!; first [done | lia | apply progress_line_ok].
  - pose proof (Hlow O ltac:(lia)) as H0. rewrite Nat.add_0_r in H0.
    replace (T <=? duration_cast_seconds (clock (reads w) - start))
      with false by (symmetry; lia).
    set (w1 := World _ _ _ _).
    destruct (IH fuel start (it + 1) w1)
      as (w' & evs' & prog & Hrun & Hheap & Hlog & Hevs' & Hr & Hc & Hout
          & Hprog).
    + by apply initialised_after_body.
    + lia.
    + lia.
    + intros j Hj. subst w1. cbn [reads].
      replace (S (reads w) + j)%nat with (reads w + S j)%nat by lia.
      apply Hlow. lia.
    + subst w1. cbn [reads].
      by replace (S (reads w) + k)%nat with (reads w + S k)%nat by lia.
    + lia.
    + rewrite Hrun. subst w1. cbn [mem reads stdout calls heap log] in *.
      eexists w', (evs' ++ evs), _.
      split_and!.
      * f_equal. lia.
      * by rewrite Hheap, insert_insert_eq.
      * by rewrite Hlog, app_assoc.
      * by apply Forall_app.
      * lia.
      * lia.
      * rewrite Hout, app_assoc. done.
      * apply Forall_app. split; [done | apply progress_line_ok].
Qed.

(** *** The report *)

Lemma ramp_lookup idx :
  0 <= idx < N -> ramp N !! Z.to_nat idx = Some (Binary32.of_Z idx).
Proof.
  intros H. unfold ramp. rewrite list_lookup_fmap, lookup_seqZ_lt by lia.
  cbn [fmap option_fmap option_map]. do 2 f_equal. lia.
Qed.

Lemma descending_lookup idx :
  0 <= idx < N ->
  descending N !! Z.to_nat idx = Some (Binary32.of_Z (N - idx)).
Proof.
  intros H. unfold descending.
  rewrite list_lookup_fmap, lookup_seqZ_lt by lia.
  cbn [fmap option_fmap option_map]. do 3 f_equal. lia.
Qed.

Lemma y_result_lookup idx :
  0 <= idx < N ->
  (y_result N) !! Z.to_nat idx
  = Some (Binary32.fma a (Binary32.of_Z idx) (Binary32.of_Z (N - idx))).
Proof.
  intros H. unfold y_result.
  rewrite lookup_zip_with, ramp_lookup, descending_lookup by done. done.
Qed.

Lemma verify_correct idx w :
  computed N w -> 0 <= idx < N ->
  verify idx w
  = Done tt (World (mem w) (reads w) (verify_line N idx :: stdout w) (calls w)).
Proof.
  intros (Hx & Hyo & Hy) Hidx. unfold verify.
  rewrite bind_eq. unfold on_mem at 1, vec_get.
  rewrite Hx, ramp_lookup by done.
  replace (0 <=? idx) with true by (symmetry; lia).
  cbn [mem reads stdout calls].
  rewrite bind_eq. unfold on_mem at 1. cbn [mem reads stdout calls].
  rewrite Hyo, descending_lookup by done.
  replace (0 <=? idx) with true by (symmetry; lia).
  cbn [mem reads stdout calls].
  rewrite bind_eq. unfold on_mem at 1. cbn [mem reads stdout calls].
  rewrite Hy, y_result_lookup by done.
  replace (0 <=? idx) with true by (symmetry; lia).
  done.
Qed.

Lemma main_report_correct start it w :
  computed N w ->
  main_report clock N start it w
  = Done 0 (World (mem w) (S (reads w))
                  (report_lines N (clock (reads w) - start) it ++ stdout w)
                  (calls w)).
Proof.
  intros Hc. unfold main_report.
  rewrite bind_eq. unfold now at 1. cbn [mem reads stdout calls].
  do 3 (rewrite bind_eq; unfold print at 1; cbn [mem reads stdout calls]).
  assert (wrap64 (N - 1) = N - 1) as ->.
  { unfold wrap64. apply Z.mod_small.
    pose proof (Z.pow_lt_mono_r 2 24 64). lia. }
  assert (0 <= N / 2 < N) as Hhalf.
  { split; [apply Z.div_pos; lia | apply Z.div_lt_upper_bound; lia]. }
  rewrite bind_eq, verify_correct by first [done | lia].
  rewrite bind_eq, verify_correct by first [done | lia].
  rewrite bind_eq, verify_correct by first [done | lia].
  rewrite bind_eq, verify_correct by first [done | lia].
  rewrite bind_eq, verify_correct by first [done | lia].
  done.
Qed.

(** *** The whole run *)

(** If the clock first reaches the target at the reading that follows
    loop body [k + 1], the driver returns after [k + 1] kernel calls. *)
Lemma main_with_run k fuel :
  (forall j, (j < k)%nat -> elapsed_seconds clock (S j) < T) ->
  T <= elapsed_seconds clock (S k) ->
  Z.of_nat k + 1 < 2 ^ 63 ->
  (k < fuel)%nat ->
  exists w prog,
    main_with lanes clock N T fuel world0 = Done 0 w
    /\ computed N w
    /\ Forall (kernel_access x y (Z.to_nat N)) (log (mem w))
    /\ reads w = (k + 3)%nat
    /\ calls w = (k + 1)%nat
    /\ stdout w
       = report_lines N (clock (k + 2) - clock 0) (Z.of_nat k + 1)
           ++ prog ++ banner lanes N T
    /\ Forall is_progress prog.
Proof.
  intros Hlow Hstop Hov Hf. unfold main_with.
  destruct (main_init_correct world0 ltac:(lia))
    as (w1 & Hinit & Hi1 & Hlog1 & Hr1 & Hc1 & Hout1).
  rewrite bind_eq, Hinit.
  rewrite bind_eq. unfold now at 1. rewrite Hr1. cbn [reads world0].
  set (w2 := World _ _ _ _).
  destruct (main_loop_run k fuel (clock 0) 0 w2)
    as (w3 & evs & prog & Hrun & Hheap & Hlog & Hevs & Hr & Hc & Hout
        & Hprog).
  - done.
  - lia.
  - lia.
  - intros j Hj. subst w2. cbn [reads]. by apply Hlow.
  - subst w2. cbn [reads]. done.
  - done.
  - rewrite bind_eq, Hrun. subst w2.
    cbn [mem reads stdout calls heap log] in *.
    assert (computed N w3) as Hcomp.
    { destruct Hi1 as (Hx & Hyo & Hy). unfold computed.
      rewrite Hheap, !lookup_insert_ne, lookup_insert_eq by done. done. }
    rewrite main_report_correct by done.
    eexists _, prog. split; [reflexivity|].
    cbn [mem reads stdout calls heap log].
    split_and!; [done | | lia | | | done].
    + rewrite Hlog, Hlog1, app_nil_r. done.
    + rewrite Hc, Hc1. cbn [world0 calls]. lia.
    + rewrite Hr, Hout, Hout1. cbn [world0 stdout].
      rewrite app_nil_r, Z.add_0_l.
      by replace (1 + k + 1)%nat with (k + 2)%nat by lia.
Qed.

(** Whenever the driver returns, it has called the kernel at least once
    and the report is the one of that many iterations. *)
Lemma main_with_done fuel z w :
  main_with lanes clock N T fuel world0 = Done z w ->
  z = 0
  /\ (1 <= calls w)%nat
  /\ computed N w
  /\ Forall (kernel_access x y (Z.to_nat N)) (log (mem w))
  /\ reads w = (calls w + 2)%nat
  /\ exists prog,
       stdout w
       = report_lines N (clock (calls w + 1) - clock 0) (Z.of_nat (calls w))
           ++ prog ++ banner lanes N T
       /\ Forall is_progress prog.
Proof.
  unfold main_with.
  destruct (main_init_correct world0 ltac:(lia))
    as (w1 & Hinit & Hi1 & Hlog1 & Hr1 & Hc1 & Hout1).
  rewrite bind_eq, Hinit.
  rewrite bind_eq. unfold now at 1. rewrite Hr1. cbn [reads world0].
  set (w2 := World _ _ _ _).
  rewrite bind_eq.
  destruct (main_loop lanes clock N T fuel (clock 0) 0 w2)
    as [it w3| | |] eqn:Hloop; try done.
  apply main_loop_done in Hloop; [|done].
  subst w2. cbn [mem reads stdout calls heap log] in Hloop.
  rewrite Hc1 in Hloop. cbn [world0 calls] in Hloop.
  rewrite Nat.sub_0_r in Hloop.
  destruct Hloop as (Hc & Hit & Hr & Hheap & (evs & Hlog & Hevs)
                     & (prog & Hout & Hprog)).
  assert (computed N w3) as Hcomp.
  { destruct Hi1 as (Hx & Hyo & Hy). unfold computed.
    rewrite Hheap, !lookup_insert_ne, lookup_insert_eq by done. done. }
  rewrite main_report_correct by done.
  intros [= <- <-]. cbn [mem reads stdout calls heap log].
  split_and!; [done | lia | done | | lia |].
  - rewrite Hlog, Hlog1, app_nil_r. done.
  - exists prog. split; [|done].
    rewrite Hr, Hit, Hout, Hout1, Z.add_0_l. cbn [world0 stdout].
    rewrite app_nil_r.
    by replace (1 + calls w3)%nat with (calls w3 + 1)%nat by lia.
Qed.

End DriverProofs.

(** ** Reading the report *)

Lemma total_iterations_progress prog :
  Forall is_progress prog -> total_iterations_lines prog = [].
Proof.
  induction 1 as [|o prog Ho _ IH]; [done|].
  destruct o; first [done | apply IH].
Qed.

Lemma performance_progress prog :
  Forall is_progress prog -> performance_lines prog = [].
Proof.
  induction 1 as [|o prog Ho _ IH]; [done|].
  destruct o; first [done | apply IH].
Qed.

Lemma total_iterations_report lanes N T ticks it prog :
  Forall is_progress prog ->
  total_iterations_lines (report_lines N ticks it ++ prog ++ banner lanes N T)
  = [it].
Proof.
  intros H. unfold total_iterations_lines. rewrite !omap_app.
  fold (total_iterations_lines prog).
  by rewrite (total_iterations_progress prog).
Qed.

Lemma performance_report lanes N T ticks it prog :
  Forall is_progress prog ->
  performance_lines (report_lines N ticks it ++ prog ++ banner lanes N T)
  = [spec_gflops N it (measured_seconds ticks)].
Proof.
  intros H. unfold performance_lines. rewrite !omap_app.
  fold (performance_lines prog). by rewrite (performance_progress prog).
Qed.

(** * Running the model *)

(** The sample vectors on four lanes: a full step, then a tail of one
    active lane; the accesses are listed latest first. *)
Example sample_run_four_lanes :
  sve_saxpy Binary32.fzero Binary32.fma 4 2 a x y sample_machine
  = Done tt
      (Machine (<[y := sample_result]> (heap sample_machine))
               [Wr y 4; Rd y 4; Rd x 4;
                Wr y 3; Wr y 2; Wr y 1; Wr y 0;
                Rd y 3; Rd y 2; Rd y 1; Rd y 0;
                Rd x 3; Rd x 2; Rd x 1; Rd x 0]).
Proof. by vm_compute. Qed.

(** One loop body is not enough for five elements on four lanes. *)
Example sample_run_cut :
  sve_saxpy Binary32.fzero Binary32.fma 4 1 a x y sample_machine = OutOfFuel.
Proof. by vm_compute. Qed.

(** The predicate of the tail step: one active lane out of four. *)
Example sample_tail_predicate :
  svwhilelt_b32 4 4 5 = [true; false; false; false].
Proof. reflexivity. Qed.

(** The multiply-add of the kernel rounds once. On the driver's own data
    it differs, at the last index, from the multiplication followed by the
    addition that the sample verification writes (when that expression is
    not contracted): [2.5 * 9999999 + 1] is 24999998.5, which rounds to
    24999998, while [2.5 * 9999999] rounds to 24999998 first and the sum
    24999999 then rounds to 25000000. *)
Remark verify_last_index_rounding :
  verify_line 10000000 9999999
  = OutVerify 9999999 (Binary32.of_Z 25000000) (Binary32.of_Z 24999998).
Proof. by vm_compute. Qed.

(** * The specification's claims about the kernel *)

(** Lane [e] of the predicate of the step at cursor [i] is active exactly
    when the global index [i + e] is below [n]. *)
Lemma svwhilelt_lookup (lanes : nat) (i n : Z) (e : nat) :
  0 <= i -> n < 2 ^ 64 -> (e < lanes)%nat ->
  (svwhilelt_b32 lanes i n : list bool) !! e
  = Some (bool_decide (i + Z.of_nat e < n)).
Proof.
  intros Hi Hn He. unfold svwhilelt_b32. rewrite whilelo_mask by done.
  unfold mask. destruct (decide (i + Z.of_nat e < n)) as [Hlt|Hge].
  - rewrite bool_decide_eq_true_2 by done.
    rewrite lookup_app_l by (rewrite length_replicate; lia).
    apply lookup_replicate_2. lia.
  - rewrite bool_decide_eq_false_2 by done.
    rewrite lookup_app_r by (rewrite length_replicate; lia).
    apply lookup_replicate_2. rewrite length_replicate. lia.
Qed.

(** C1. For every scalar [a], vectors [x] and [y] of equal length [n] and
    lane count at least 1, [sve_saxpy] returns and [y] then holds, at every
    index below [n], the multiply-add [a * X[i] + Y[i]] of the elements at
    entry, whether or not [n] is a multiple of the lane count; when [n] is
    0 the call leaves the machine as it was, with no access made. *)
Theorem sve_saxpy_computes_axpy {F : Type} (fzero : F)
    (fmad : F -> F -> F -> F) (lanes fuel : nat) (a : F)
    (vx vy : positive) (X Y : list F) (m : machine F) :
  heap m !! vx = Some X -> heap m !! vy = Some Y ->
  length X = length Y ->
  Z.of_nat (length X) <= max_size ->
  (1 <= lanes)%nat -> Z.of_nat lanes < 2 ^ 64 ->
  (length X <= fuel * lanes)%nat ->
  exists m' Y',
    sve_saxpy fzero fmad lanes fuel a vx vy m = Done tt m'
    /\ heap m' !! vy = Some Y'
    /\ length Y' = length Y
    /\ (forall i xi yi,
          X !! i = Some xi -> Y !! i = Some yi ->
          Y' !! i = Some (fmad a xi yi))
    /\ (length X = 0%nat -> m' = m).
Proof.
  intros Hx Hy Hlen Hmax Hl1 Hl64 Hfuel.
  destruct (sve_saxpy_correct fzero fmad lanes fuel a vx vy X Y m)
    as (evs & Hrun & Hevs); try done.
  eexists _, (zip_with (fmad a) X Y). split; [exact Hrun|].
  cbn [heap log]. split_and!.
  - by rewrite lookup_insert_eq.
  - rewrite length_zip_with. lia.
  - intros i xi yi Hxi Hyi. by rewrite lookup_zip_with, Hxi, Hyi.
  - intros H0. rewrite H0 in Hevs. apply kernel_access_0 in Hevs as ->.
    destruct X, Y; try done. cbn [zip_with app].
    rewrite insert_id by done. by destruct m.
Qed.

(** C2. When the two vectors differ in length, [sve_saxpy] throws
    [runtime_error] with the machine exactly as it was at entry: no element
    has been read or written, and [y] is unchanged. *)
Theorem sve_saxpy_size_mismatch {F : Type} (fzero : F)
    (fmad : F -> F -> F -> F) (lanes fuel : nat) (a : F)
    (vx vy : positive) (X Y : list F) (m : machine F) :
  heap m !! vx = Some X -> heap m !! vy = Some Y ->
  length X <> length Y ->
  sve_saxpy fzero fmad lanes fuel a vx vy m
  = Throw "Vector sizes must be equal." m.
Proof.
  intros Hx Hy Hne.
  by rewrite (sve_saxpy_sizes _ _ _ _ _ _ _ X Y), decide_False.
Qed.

(** C3. For every length [n] and lane count, a multiple of it or not,
    [sve_saxpy] returns without a fault and every access it makes is a
    load from [x] or [y] or a store to [y] at an index below [n]; the lanes
    of each step are enabled by the comparison of the global index with
    [n]. *)
Theorem sve_saxpy_in_bounds {F : Type} (fzero : F)
    (fmad : F -> F -> F -> F) (lanes fuel : nat) (a : F)
    (vx vy : positive) (X Y : list F) (m : machine F) :
  heap m !! vx = Some X -> heap m !! vy = Some Y ->
  length X = length Y ->
  Z.of_nat (length X) <= max_size ->
  (1 <= lanes)%nat -> Z.of_nat lanes < 2 ^ 64 ->
  (length X <= fuel * lanes)%nat ->
  (exists m' evs,
     sve_saxpy fzero fmad lanes fuel a vx vy m = Done tt m'
     /\ log m' = evs ++ log m
     /\ Forall (kernel_access vx vy (length X)) evs)
  /\ (forall (i : Z) (e : nat),
        0 <= i -> (e < lanes)%nat ->
        (svwhilelt_b32 lanes i (Z.of_nat (length X)) : list bool) !! e
        = Some (bool_decide (i + Z.of_nat e < Z.of_nat (length X)))).
Proof.
  intros Hx Hy Hlen Hmax Hl1 Hl64 Hfuel. split.
  - destruct (sve_saxpy_correct fzero fmad lanes fuel a vx vy X Y m)
      as (evs & Hrun & Hevs); try done.
    by eexists _, evs.
  - intros i e Hi He. apply svwhilelt_lookup; try done.
    pose proof max_size_lt. lia.
Qed.

(** C4. The loop of [sve_saxpy] terminates for every length: it executes
    one body per register-full of elements, that is, it returns as soon as
    the fuel covers the length and is cut short by any smaller fuel; in
    particular one unit of fuel per element is enough. *)
Theorem sve_saxpy_terminates {F : Type} (fzero : F)
    (fmad : F -> F -> F -> F) (lanes : nat) (a : F)
    (vx vy : positive) (X Y : list F) (m : machine F) :
  heap m !! vx = Some X -> heap m !! vy = Some Y ->
  length X = length Y ->
  Z.of_nat (length X) <= max_size ->
  (1 <= lanes)%nat -> Z.of_nat lanes < 2 ^ 64 ->
  (forall fuel, (length X <= fuel * lanes)%nat ->
     exists m', sve_saxpy fzero fmad lanes fuel a vx vy m = Done tt m')
  /\ (forall fuel, (fuel * lanes < length X)%nat ->
        sve_saxpy fzero fmad lanes fuel a vx vy m = OutOfFuel)
  /\ (exists m',
        sve_saxpy fzero fmad lanes (length X) a vx vy m = Done tt m').
Proof.
  intros Hx Hy Hlen Hmax Hl1 Hl64.
  assert (forall fuel, (length X <= fuel * lanes)%nat ->
            exists m', sve_saxpy fzero fmad lanes fuel a vx vy m = Done tt m')
    as Hdone.
  { intros fuel Hfuel.
    destruct (sve_saxpy_correct fzero fmad lanes fuel a vx vy X Y m)
      as (evs & Hrun & _); try done. by eexists. }
  split_and!; [done | | apply Hdone; nia].
  intros fuel Hfuel. by apply (sve_saxpy_out_of_fuel _ _ _ _ _ _ _ X Y).
Qed.

(** C5. With [a = 2.5], [X = [0, 1, 2, 3, 4]] and [Y = [5, 4, 3, 2, 1]],
    [sve_saxpy] leaves [[5.0, 6.5, 8.0, 9.5, 11.0]] in [y], on every lane
    count. *)
Theorem sve_saxpy_sample (lanes fuel : nat) (vx vy : positive)
    (m : machine spec_float) :
  heap m !! vx = Some sample_X -> heap m !! vy = Some sample_Y ->
  (1 <= lanes)%nat -> Z.of_nat lanes < 2 ^ 64 ->
  (5 <= fuel * lanes)%nat ->
  exists m',
    sve_saxpy Binary32.fzero Binary32.fma lanes fuel a vx vy m = Done tt m'
    /\ heap m' !! vy = Some sample_result.
Proof.
  intros Hx Hy Hl1 Hl64 Hfuel.
  destruct (sve_saxpy_correct Binary32.fzero Binary32.fma lanes fuel a vx vy
              sample_X sample_Y m) as (evs & Hrun & _); try done.
  eexists. split; [exact Hrun|]. cbn [heap]. rewrite lookup_insert_eq.
  f_equal.
Qed.

(** C6. Two invocations with the same scalar on vectors with the same
    contents return the same contents in [y], element for element, whatever
    else the two machines hold, whichever objects the vectors are and
    whatever the lane counts; so two runs of the driver, each resetting [y]
    from [y_original] before every call, end with the same [y] however
    many iterations each has made. *)
Theorem sve_saxpy_deterministic {F : Type} (fzero : F)
    (fmad : F -> F -> F -> F) (lanes1 lanes2 fuel1 fuel2 : nat) (a : F)
    (vx1 vy1 vx2 vy2 : positive) (X Y : list F) (m1 m2 : machine F)
    (clock1 clock2 : nat -> Z) (N T1 T2 : Z) (dfuel1 dfuel2 : nat)
    (z1 z2 : Z) (w1 w2 : world) :
  heap m1 !! vx1 = Some X -> heap m1 !! vy1 = Some Y ->
  heap m2 !! vx2 = Some X -> heap m2 !! vy2 = Some Y ->
  length X = length Y ->
  Z.of_nat (length X) <= max_size ->
  (1 <= lanes1)%nat -> Z.of_nat lanes1 < 2 ^ 64 ->
  (1 <= lanes2)%nat -> Z.of_nat lanes2 < 2 ^ 64 ->
  (length X <= fuel1 * lanes1)%nat -> (length X <= fuel2 * lanes2)%nat ->
  43 <= N < 2 ^ 24 ->
  main_with lanes1 clock1 N T1 dfuel1 world0 = Done z1 w1 ->
  main_with lanes2 clock2 N T2 dfuel2 world0 = Done z2 w2 ->
  (exists m1' m2',
     sve_saxpy fzero fmad lanes1 fuel1 a vx1 vy1 m1 = Done tt m1'
     /\ sve_saxpy fzero fmad lanes2 fuel2 a vx2 vy2 m2 = Done tt m2'
     /\ heap m1' !! vy1 = heap m2' !! vy2)
  /\ heap (mem w1) !! y = heap (mem w2) !! y.
Proof.
  intros Hx1 Hy1 Hx2 Hy2 Hlen Hmax Hl1 Hl1' Hl2 Hl2' Hf1 Hf2 HN Hm1 Hm2.
  split.
  - destruct (sve_saxpy_correct fzero fmad lanes1 fuel1 a vx1 vy1 X Y m1)
      as (evs1 & Hrun1 & _); try done.
    destruct (sve_saxpy_correct fzero fmad lanes2 fuel2 a vx2 vy2 X Y m2)
      as (evs2 & Hrun2 & _); try done.
    eexists _, _. split_and!; [exact Hrun1 | exact Hrun2 |].
    cbn [heap]. by rewrite !lookup_insert_eq.
  - apply main_with_done in Hm1 as (_ & _ & (_ & _ & ->) & _); try done.
    apply main_with_done in Hm2 as (_ & _ & (_ & _ & ->) & _); done.
Qed.

(** C7 fails as stated: in the call [sve_saxpy(2.5f, v, v)] on the
    one-element vector [v = [1.0]] the vector read as [x] holds [3.5]
    afterwards. *)
Lemma sve_saxpy_aliased_changes_x :
  heap alias_machine !! x = Some [Binary32.of_Z 1]
  /\ sve_saxpy Binary32.fzero Binary32.fma 4 1 a x x alias_machine
     = Done tt alias_machine_after
  /\ heap alias_machine_after !! x = Some [Binary32.of_dyadic 7 (-1)]
  /\ Binary32.of_Z 1 <> Binary32.of_dyadic 7 (-1).
Proof. by vm_compute. Qed.

(** * The specification's claims about the driver *)

Lemma ramp_exact (N : Z) :
  0 <= N < 2 ^ 24 -> SF2Z <$> ramp N = Some <$> seqZ 0 N.
Proof.
  intros HN. unfold ramp. rewrite <- list_fmap_compose.
  apply list_fmap_ext. intros i z Hz.
  apply lookup_seqZ in Hz as [-> Hi]. cbn. apply of_Z_exact. lia.
Qed.

Lemma descending_exact (N : Z) :
  0 <= N < 2 ^ 24 ->
  SF2Z <$> descending N = (fun i => Some (N - i)) <$> seqZ 0 N.
Proof.
  intros HN. unfold descending. rewrite <- list_fmap_compose.
  apply list_fmap_ext. intros i z Hz.
  apply lookup_seqZ in Hz as [-> Hi]. cbn. apply of_Z_exact. lia.
Qed.

(** C7, amended. [sve_saxpy] changes no object but [y], so [x] is
    unchanged by every call whose two vectors are distinct objects; and
    whenever the driver returns, [x] and [y_original] hold what the
    initialisation left in them. *)
Theorem sve_saxpy_mutates_only_y {F : Type} (fzero : F)
    (fmad : F -> F -> F -> F) (lanes fuel : nat) (a : F)
    (vx vy : positive) (X Y : list F) (m : machine F)
    (lanes' : nat) (clock : nat -> Z) (N T : Z) (fuel' : nat) (z : Z)
    (w : world) :
  heap m !! vx = Some X -> heap m !! vy = Some Y ->
  length X = length Y ->
  Z.of_nat (length X) <= max_size ->
  (1 <= lanes)%nat -> Z.of_nat lanes < 2 ^ 64 ->
  (length X <= fuel * lanes)%nat ->
  43 <= N < 2 ^ 24 ->
  (1 <= lanes')%nat -> Z.of_nat lanes' < 2 ^ 64 ->
  main_with lanes' clock N T fuel' world0 = Done z w ->
  (exists m',
     sve_saxpy fzero fmad lanes fuel a vx vy m = Done tt m'
     /\ (forall o, o <> vy -> heap m' !! o = heap m !! o)
     /\ (vx <> vy -> heap m' !! vx = Some X))
  /\ (exists w1,
        main_init lanes' N T world0 = Done tt w1
        /\ heap (mem w) !! x = heap (mem w1) !! x
        /\ heap (mem w) !! y_original = heap (mem w1) !! y_original).
Proof.
  intros Hx Hy Hlen Hmax Hl1 Hl64 Hfuel HN Hl1' Hl64' Hmain. split.
  - destruct (sve_saxpy_correct fzero fmad lanes fuel a vx vy X Y m)
      as (evs & Hrun & _); try done.
    eexists. split; [exact Hrun|]. cbn [heap]. split.
    + intros o Ho. by rewrite lookup_insert_ne.
    + intros Hne. by rewrite lookup_insert_ne.
  - destruct (main_init_correct lanes' N T world0 ltac:(lia))
      as (w1 & Hinit & (Hx1 & Hyo1 & _) & _).
    apply main_with_done in Hmain as (_ & _ & (Hxw & Hyow & _) & _);
      try done.
    exists w1. by rewrite Hxw, Hyow, Hx1, Hyo1.
Qed.

(** C8. Before the timed loop starts, [main] has filled [x] with the ramp
    [0, 1, ..., N-1] and [y_original] with the descending ramp
    [N, N-1, ..., 1], each float holding its integer exactly, in the one
    initialisation that precedes the loop. *)
Theorem main_initialises_ramps (lanes : nat) (clock : nat -> Z) (fuel : nat) :
  exists w1,
    main_init lanes 10000000 120 world0 = Done tt w1
    /\ main lanes clock fuel world0
       = (let! start_time := now clock in
          let! iterations :=
            main_loop lanes clock 10000000 120 fuel start_time 0 in
          main_report clock 10000000 start_time iterations) w1
    /\ heap (mem w1) !! x = Some (ramp 10000000)
    /\ heap (mem w1) !! y_original = Some (descending 10000000)
    /\ SF2Z <$> ramp 10000000 = Some <$> seqZ 0 10000000
    /\ SF2Z <$> descending 10000000
       = (fun i => Some (10000000 - i)) <$> seqZ 0 10000000.
Proof.
  assert (0 <= 10000000 < 2 ^ 24) as HN by lia.
  destruct (main_init_correct lanes 10000000 120 world0 HN)
    as (w1 & Hinit & (Hx1 & Hyo1 & _) & _).
  exists w1. split_and!.
  - exact Hinit.
  - unfold main, main_with. rewrite bind_eq, Hinit. reflexivity.
  - exact Hx1.
  - exact Hyo1.
  - exact (ramp_exact _ HN).
  - exact (descending_exact _ HN).
Qed.

(** C9. When the driver returns, the one [Performance] line it has printed
    is [2 * N * iterations] over the elapsed seconds over [10^9], in double
    precision, with [iterations] the number of kernel calls performed and
    the elapsed seconds measured from the start of the timed loop to the
    clock reading taken after it. *)
Theorem main_reports_gflops (lanes : nat) (clock : nat -> Z) (N T : Z)
    (k fuel : nat) :
  43 <= N < 2 ^ 24 ->
  (1 <= lanes)%nat -> Z.of_nat lanes < 2 ^ 64 ->
  (forall j, (j < k)%nat -> elapsed_seconds clock (S j) < T) ->
  T <= elapsed_seconds clock (S k) ->
  Z.of_nat k + 1 < 2 ^ 63 ->
  (k < fuel)%nat ->
  exists w,
    main_with lanes clock N T fuel world0 = Done 0 w
    /\ calls w = (k + 1)%nat
    /\ reads w = (k + 3)%nat
    /\ performance_lines (stdout w)
       = [spec_gflops N (Z.of_nat (calls w))
            (measured_seconds (clock (reads w - 1)%nat - clock 0%nat))].
Proof.
  intros HN Hl1 Hl64 Hlow Hstop Hov Hf.
  destruct (main_with_run lanes clock N T HN Hl1 Hl64 k fuel)
    as (w & prog & Hrun & _ & _ & Hr & Hc & Hout & Hprog); try done.
  exists w. split_and!; try done.
  rewrite Hout, performance_report, Hr, Hc by done.
  replace (k + 3 - 1)%nat with (k + 2)%nat by lia.
  do 3 f_equal. lia.
Qed.

(** C10. The timed loop looks at the clock only after a full iteration:
    whenever the driver returns it has called the kernel at least once and
    its [Total iterations] line shows that number of calls; and it does
    return, after [k + 1] calls, when the clock first reaches the target at
    the reading that follows iteration [k + 1], for every target
    duration. *)
Theorem main_at_least_one_iteration (lanes : nat) (clock : nat -> Z)
    (N T : Z) :
  43 <= N < 2 ^ 24 ->
  (1 <= lanes)%nat -> Z.of_nat lanes < 2 ^ 64 ->
  (forall fuel z w,
     main_with lanes clock N T fuel world0 = Done z w ->
     (1 <= calls w)%nat
     /\ total_iterations_lines (stdout w) = [Z.of_nat (calls w)])
  /\ (forall k fuel,
        (forall j, (j < k)%nat -> elapsed_seconds clock (S j) < T) ->
        T <= elapsed_seconds clock (S k) ->
        Z.of_nat k + 1 < 2 ^ 63 ->
        (k < fuel)%nat ->
        exists w,
          main_with lanes clock N T fuel world0 = Done 0 w
          /\ calls w = (k + 1)%nat).
Proof.
  intros HN Hl1 Hl64. split.
  - intros fuel z w Hmain.
    apply main_with_done in Hmain
      as (_ & Hc & _ & _ & _ & prog & Hout & Hprog); try done.
    split; [done|]. by rewrite Hout, total_iterations_report.
  - intros k fuel Hlow Hstop Hov Hf.
    destruct (main_with_run lanes clock N T HN Hl1 Hl64 k fuel)
      as (w & prog & Hrun & _ & _ & _ & Hc & _); try done.
    by exists w.
Qed.

(** * The theorems at concrete inputs *)

Lemma sve_saxpy_computes_axpy_witness :
  exists m' Y',
    sve_saxpy Binary32.fzero Binary32.fma 4 2 a x y sample_machine
    = Done tt m'
    /\ heap m' !! y = Some Y'
    /\ length Y' = length sample_Y
    /\ (forall i xi yi,
          sample_X !! i = Some xi -> sample_Y !! i = Some yi ->
          Y' !! i = Some (Binary32.fma a xi yi))
    /\ (length sample_X = 0%nat -> m' = sample_machine).
Proof.
  apply (sve_saxpy_computes_axpy Binary32.fzero Binary32.fma 4 2 a x y
           sample_X sample_Y sample_machine);
    [reflexivity | reflexivity | reflexivity | by vm_compute | lia
    | by vm_compute | cbn; lia].
Defined.

Lemma sve_saxpy_size_mismatch_witness :
  sve_saxpy Binary32.fzero Binary32.fma 4 2 a x y mismatch_machine
  = Throw "Vector sizes must be equal." mismatch_machine.
Proof.
  apply (sve_saxpy_size_mismatch Binary32.fzero Binary32.fma 4 2 a x y
           sample_X [Binary32.of_Z 1] mismatch_machine);
    [reflexivity | reflexivity | cbn; lia].
Defined.

Lemma sve_saxpy_in_bounds_witness :
  (exists m' evs,
     sve_saxpy Binary32.fzero Binary32.fma 4 2 a x y sample_machine
     = Done tt m'
     /\ log m' = evs ++ log sample_machine
     /\ Forall (kernel_access x y (length sample_X)) evs)
  /\ (forall (i : Z) (e : nat),
        0 <= i -> (e < 4)%nat ->
        (svwhilelt_b32 4 i (Z.of_nat (length sample_X)) : list bool) !! e
        = Some (bool_decide (i + Z.of_nat e < Z.of_nat (length sample_X)))).
Proof.
  apply (sve_saxpy_in_bounds Binary32.fzero Binary32.fma 4 2 a x y
           sample_X sample_Y sample_machine);
    [reflexivity | reflexivity | reflexivity | by vm_compute | lia
    | by vm_compute | cbn; lia].
Defined.

Lemma sve_saxpy_terminates_witness :
  (forall fuel, (length sample_X <= fuel * 4)%nat ->
     exists m',
       sve_saxpy Binary32.fzero Binary32.fma 4 fuel a x y sample_machine
       = Done tt m')
  /\ (forall fuel, (fuel * 4 < length sample_X)%nat ->
        sve_saxpy Binary32.fzero Binary32.fma 4 fuel a x y sample_machine
        = OutOfFuel)
  /\ (exists m',
        sve_saxpy Binary32.fzero Binary32.fma 4 (length sample_X) a x y
                  sample_machine = Done tt m').
Proof.
  apply (sve_saxpy_terminates Binary32.fzero Binary32.fma 4 a x y
           sample_X sample_Y sample_machine);
    [reflexivity | reflexivity | reflexivity | by vm_compute | lia
    | by vm_compute].
Defined.

Lemma sve_saxpy_sample_witness :
  exists m',
    sve_saxpy Binary32.fzero Binary32.fma 4 2 a x y sample_machine
    = Done tt m'
    /\ heap m' !! y = Some sample_result.
Proof.
  apply (sve_saxpy_sample 4 2 x y sample_machine);
    [reflexivity | reflexivity | lia | by vm_compute | lia].
Defined.

Lemma sve_saxpy_deterministic_witness :
  (exists m1' m2',
     sve_saxpy Binary32.fzero Binary32.fma 4 2 a x y sample_machine
     = Done tt m1'
     /\ sve_saxpy Binary32.fzero Binary32.fma 16 1 a x y sample_machine
        = Done tt m2'
     /\ heap m1' !! y = heap m2' !! y)
  /\ heap (mem demo_world) !! y = heap (mem demo_world_wide) !! y.
Proof.
  apply (sve_saxpy_deterministic Binary32.fzero Binary32.fma 4 16 2 1 a
           x y x y sample_X sample_Y sample_machine sample_machine
           demo_clock demo_clock 64 2 0 3 1 0 0 demo_world demo_world_wide);
    [reflexivity | reflexivity | reflexivity | reflexivity | reflexivity
    | by vm_compute | lia | by vm_compute | lia | by vm_compute
    | cbn; lia | cbn; lia | lia | vm_compute; reflexivity
    | vm_compute; reflexivity].
Defined.

Lemma sve_saxpy_mutates_only_y_witness :
  (exists m',
     sve_saxpy Binary32.fzero Binary32.fma 4 2 a x y sample_machine
     = Done tt m'
     /\ (forall o, o <> y -> heap m' !! o = heap sample_machine !! o)
     /\ (x <> y -> heap m' !! x = Some sample_X))
  /\ (exists w1,
        main_init 4 64 2 world0 = Done tt w1
        /\ heap (mem demo_world) !! x = heap (mem w1) !! x
        /\ heap (mem demo_world) !! y_original
           = heap (mem w1) !! y_original).
Proof.
  apply (sve_saxpy_mutates_only_y Binary32.fzero Binary32.fma 4 2 a x y
           sample_X sample_Y sample_machine 4 demo_clock 64 2 3 0
           demo_world);
    [reflexivity | reflexivity | reflexivity | by vm_compute | lia
    | by vm_compute | cbn; lia | lia | lia | by vm_compute
    | vm_compute; reflexivity].
Defined.

Lemma main_reports_gflops_witness :
  exists w,
    main_with 4 demo_clock 64 2 3 world0 = Done 0 w
    /\ calls w = (2 + 1)%nat
    /\ reads w = (2 + 3)%nat
    /\ performance_lines (stdout w)
       = [spec_gflops 64 (Z.of_nat (calls w))
            (measured_seconds
               (demo_clock (reads w - 1)%nat - demo_clock 0%nat))].
Proof.
  apply (main_reports_gflops 4 demo_clock 64 2 2 3);
    [lia | lia | by vm_compute
    | intros [|[|j]] Hj; [by vm_compute | by vm_compute | lia]
    | by vm_compute | by vm_compute | lia].
Defined.

Lemma main_at_least_one_iteration_witness :
  (forall fuel z w,
     main_with 4 demo_clock 64 0 fuel world0 = Done z w ->
     (1 <= calls w)%nat
     /\ total_iterations_lines (stdout w) = [Z.of_nat (calls w)])
  /\ (forall k fuel,
        (forall j, (j < k)%nat -> elapsed_seconds demo_clock (S j) < 0) ->
        0 <= elapsed_seconds demo_clock (S k) ->
        Z.of_nat k + 1 < 2 ^ 63 ->
        (k < fuel)%nat ->
        exists w,
          main_with 4 demo_clock 64 0 fuel world0 = Done 0 w
          /\ calls w = (k + 1)%nat).
Proof.
  apply (main_at_least_one_iteration 4 demo_clock 64 0);
    [lia | lia | by vm_compute].
Defined.

(** * Further properties of the kernel: the access log *)

Lemma loop_log_eq x y lanes n fuel j :
  loop_log x y lanes n fuel j
  = if decide (j < n)%nat then
      match fuel with
      | O => []
      | S fuel' =>
          loop_log x y lanes n fuel' (j + lanes)
            ++ chunk_log x y j (lanes `min` (n - j))
      end
    else [].
Proof. by destruct fuel. Qed.

Section KernelLog.
Context {F : Type}.
Variable fzero : F.
Variable fmad : F -> F -> F -> F.
Variable lanes : nat.
Variables (a : F) (x y : positive) (X0 Y0 : list F) (n : nat).
Hypothesis HX0 : length X0 = n.
Hypothesis HY0 : length Y0 = n.
Hypothesis Hmax : Z.of_nat n <= max_size.
Hypothesis Hl1 : (1 <= lanes)%nat.
Hypothesis Hl64 : Z.of_nat lanes < 2 ^ 64.
Hypothesis Halias : x = y -> X0 = Y0.

Lemma saxpy_loop_log fuel j m :
  loop_inv fmad lanes a x y X0 Y0 n j m ->
  (n - j <= fuel * lanes)%nat ->
  saxpy_loop fzero fmad lanes fuel a (Ptr x 0) (Ptr y 0)
             (Z.of_nat n) (Z.of_nat j) m
  = Done tt (Machine (<[y := saxpy_upto fmad a X0 Y0 n]> (heap m))
                     (loop_log x y lanes n fuel j ++ log m)).
Proof.
  revert j m. induction fuel as [|fuel IH]; intros j m Hinv Hfuel;
    rewrite loop_log_eq.
  - rewrite (saxpy_loop_exit fzero fmad lanes a x y X0 Y0 n)
      by first [done | lia].
    rewrite decide_False by lia.
    destruct Hinv as (_ & _ & Hy). rewrite Nat.min_r in Hy by lia.
    rewrite insert_id by done. by destruct m.
  - destruct (decide (j < n)%nat) as [Hlt|Hge].
    + rewrite (saxpy_loop_step fzero fmad lanes a x y X0 Y0 n) by done.
      rewrite IH; [|by apply loop_inv_step | nia].
      unfold after_step. cbn [heap log].
      by rewrite insert_insert_eq, app_assoc.
    + rewrite (saxpy_loop_exit fzero fmad lanes a x y X0 Y0 n)
        by first [done | lia].
      destruct Hinv as (_ & _ & Hy). rewrite Nat.min_r in Hy by lia.
      rewrite insert_id by done. by destruct m.
Qed.

End KernelLog.

Lemma loads_from_app o l1 l2 :
  loads_from o (l1 ++ l2) = loads_from o l2 ++ loads_from o l1.
Proof. unfold loads_from. by rewrite reverse_app, omap_app. Qed.

Lemma stores_to_app o l1 l2 :
  stores_to o (l1 ++ l2) = stores_to o l2 ++ stores_to o l1.
Proof. unfold stores_to. by rewrite reverse_app, omap_app. Qed.

Lemma loads_from_rd o o' j c :
  loads_from o (reverse (Rd o' <$> seq j c))
  = if decide (o' = o) then seq j c else [].
Proof.
  unfold loads_from. rewrite reverse_involutive.
  revert j. induction c as [|c IH]; intros j; [by destruct (decide _)|].
  cbn [seq fmap list_fmap omap list_omap]. rewrite IH.
  by destruct (decide (o' = o)).
Qed.

Lemma loads_from_wr o o' j c :
  loads_from o (reverse (Wr o' <$> seq j c)) = [].
Proof.
  unfold loads_from. rewrite reverse_involutive.
  revert j. induction c as [|c IH]; intros j; [done|].
  cbn [seq fmap list_fmap omap list_omap]. by rewrite IH.
Qed.

Lemma stores_to_wr o o' j c :
  stores_to o (reverse (Wr o' <$> seq j c))
  = if decide (o' = o) then seq j c else [].
Proof.
  unfold stores_to. rewrite reverse_involutive.
  revert j. induction c as [|c IH]; intros j; [by destruct (decide _)|].
  cbn [seq fmap list_fmap omap list_omap]. rewrite IH.
  by destruct (decide (o' = o)).
Qed.

Lemma stores_to_rd o o' j c :
  stores_to o (reverse (Rd o' <$> seq j c)) = [].
Proof.
  unfold stores_to. rewrite reverse_involutive.
  revert j. induction c as [|c IH]; intros j; [done|].
  cbn [seq fmap list_fmap omap list_omap]. by rewrite IH.
Qed.

Lemma length_chunk_log x y j c : length (chunk_log x y j c) = (3 * c)%nat.
Proof.
  unfold chunk_log.
  rewrite !length_app, !length_reverse, !length_fmap, !length_seq. lia.
Qed.

Lemma stores_to_chunk x y j c : stores_to y (chunk_log x y j c) = seq j c.
Proof.
  unfold chunk_log.
  rewrite !stores_to_app, !stores_to_rd, stores_to_wr, decide_True by done.
  done.
Qed.

Lemma stores_elsewhere_chunk o x y j c :
  o <> y -> stores_to o (chunk_log x y j c) = [].
Proof.
  intros Ho. unfold chunk_log.
  rewrite !stores_to_app, !stores_to_rd, stores_to_wr, decide_False by done.
  done.
Qed.

Lemma loads_from_chunk o x y j c :
  loads_from o (chunk_log x y j c)
  = (if decide (x = o) then seq j c else [])
      ++ (if decide (y = o) then seq j c else []).
Proof.
  unfold chunk_log.
  rewrite !loads_from_app, !loads_from_rd, loads_from_wr, app_nil_r. done.
Qed.

Section LoopLog.
Variables (x y : positive) (lanes n : nat).
Hypothesis Hl1 : (1 <= lanes)%nat.

Lemma seq_chunk j :
  (j < n)%nat ->
  seq j (lanes `min` (n - j)) ++ seq (j + lanes) (n - (j + lanes))
  = seq j (n - j).
Proof.
  intros Hlt. destruct (decide (lanes <= n - j)%nat) as [Hle|Hgt].
  - rewrite Nat.min_l by done.
    replace (seq j (n - j)) with (seq j (lanes + (n - (j + lanes))))
      by (f_equal; lia).
    by rewrite seq_app.
  - rewrite Nat.min_r by lia.
    replace (n - (j + lanes))%nat with O by lia. by rewrite app_nil_r.
Qed.

Lemma stores_to_loop_log fuel j :
  (n - j <= fuel * lanes)%nat ->
  stores_to y (loop_log x y lanes n fuel j) = seq j (n - j).
Proof.
  revert j. induction fuel as [|fuel IH]; intros j Hf; rewrite loop_log_eq.
  - rewrite decide_False by lia. by replace (n - j)%nat with O by lia.
  - destruct (decide (j < n)%nat) as [Hlt|Hge].
    + rewrite stores_to_app, stores_to_chunk, IH by nia. by apply seq_chunk.
    + by replace (n - j)%nat with O by lia.
Qed.

Lemma stores_elsewhere_loop_log o fuel j :
  o <> y -> stores_to o (loop_log x y lanes n fuel j) = [].
Proof.
  intros Ho. revert j. induction fuel as [|fuel IH]; intros j;
    rewrite loop_log_eq; destruct (decide (j < n)%nat); try done.
  by rewrite stores_to_app, stores_elsewhere_chunk, IH.
Qed.

Lemma loads_from_loop_log o fuel j :
  x <> y -> o = x \/ o = y ->
  (n - j <= fuel * lanes)%nat ->
  loads_from o (loop_log x y lanes n fuel j) = seq j (n - j).
Proof.
  intros Hne Ho. revert j. induction fuel as [|fuel IH]; intros j Hf;
    rewrite loop_log_eq.
  - rewrite decide_False by lia. by replace (n - j)%nat with O by lia.
  - destruct (decide (j < n)%nat) as [Hlt|Hge].
    + rewrite loads_from_app, loads_from_chunk, IH by nia.
      destruct Ho as [-> | ->].
      * rewrite decide_True, decide_False, app_nil_r by done.
        by apply seq_chunk.
      * rewrite decide_False, decide_True by done. by apply seq_chunk.
    + by replace (n - j)%nat with O by lia.
Qed.

Lemma length_loop_log fuel j :
  (n - j <= fuel * lanes)%nat ->
  length (loop_log x y lanes n fuel j) = (3 * (n - j))%nat.
Proof.
  revert j. induction fuel as [|fuel IH]; intros j Hf; rewrite loop_log_eq.
  - rewrite decide_False by lia. cbn. lia.
  - destruct (decide (j < n)%nat) as [Hlt|Hge]; [|cbn; lia].
    rewrite length_app, length_chunk_log, IH by nia. lia.
Qed.

End LoopLog.

Lemma sve_saxpy_log {F : Type} (fzero : F) (fmad : F -> F -> F -> F)
    (lanes fuel : nat) (a : F) (x y : positive) (X0 Y0 : list F)
    (m : machine F) :
  heap m !! x = Some X0 -> heap m !! y = Some Y0 ->
  length X0 = length Y0 ->
  Z.of_nat (length X0) <= max_size ->
  (1 <= lanes)%nat -> Z.of_nat lanes < 2 ^ 64 ->
  (length X0 <= fuel * lanes)%nat ->
  sve_saxpy fzero fmad lanes fuel a x y m
  = Done tt (Machine (<[y := zip_with (fmad a) X0 Y0]> (heap m))
                     (loop_log x y lanes (length X0) fuel 0 ++ log m)).
Proof.
  intros Hx Hy Hlen Hmax Hl1 Hl64 Hfuel.
  rewrite (sve_saxpy_sizes _ _ _ _ _ _ _ X0 Y0), decide_True by done.
  rewrite <- (saxpy_upto_all fmad a X0 Y0) by done.
  change 0 with (Z.of_nat 0).
  apply (saxpy_loop_log fzero fmad lanes a x y X0 Y0 (length X0));
    try done; try lia.
  - intros ->. congruence.
  - by apply loop_inv_0.
Qed.

(** X1. A call that passes one vector [v] as both [x] and [y] returns,
    replaces every element [e] of [v] by [a * e + e], and leaves every
    other object of the store as it was. *)
Theorem sve_saxpy_in_place {F : Type} (fzero : F)
    (fmad : F -> F -> F -> F) (lanes fuel : nat) (a : F)
    (v : positive) (V : list F) (m : machine F) :
  heap m !! v = Some V ->
  Z.of_nat (length V) <= max_size ->
  (1 <= lanes)%nat -> Z.of_nat lanes < 2 ^ 64 ->
  (length V <= fuel * lanes)%nat ->
  exists m',
    sve_saxpy fzero fmad lanes fuel a v v m = Done tt m'
    /\ heap m' !! v = Some ((fun e => fmad a e e) <$> V)
    /\ (forall o, o <> v -> heap m' !! o = heap m !! o).
Proof.
  intros Hv Hmax Hl1 Hl64 Hfuel.
  eexists. split; [by apply (sve_saxpy_log _ _ _ _ _ _ _ V V)|].
  cbn [heap]. split.
  - by rewrite lookup_insert_eq, zip_with_diag.
  - intros o Ho. by rewrite lookup_insert_ne.
Qed.


(** X3. Two calls in a row on the same distinct vectors, with scalars [a]
    then [b], accumulate: [y] ends as [b * X[i] + (a * X[i] + Y[i])] at
    every index, and [x] is unchanged. *)
Theorem sve_saxpy_twice {F : Type} (fzero : F)
    (fmad : F -> F -> F -> F) (lanes fuel : nat) (a b : F)
    (vx vy : positive) (X Y : list F) (m : machine F) :
  heap m !! vx = Some X -> heap m !! vy = Some Y ->
  vx <> vy ->
  length X = length Y ->
  Z.of_nat (length X) <= max_size ->
  (1 <= lanes)%nat -> Z.of_nat lanes < 2 ^ 64 ->
  (length X <= fuel * lanes)%nat ->
  exists m',
    (sve_saxpy fzero fmad lanes fuel a vx vy ;;
     sve_saxpy fzero fmad lanes fuel b vx vy) m = Done tt m'
    /\ heap m' !! vy
       = Some (zip_with (fun xi yi => fmad b xi (fmad a xi yi)) X Y)
    /\ heap m' !! vx = Some X.
Proof.
  intros Hx Hy Hne Hlen Hmax Hl1 Hl64 Hfuel.
  rewrite bind_eq, (sve_saxpy_log _ _ _ _ _ _ _ X Y) by done.
  eexists. split.
  - apply (sve_saxpy_log _ _ _ _ _ _ _ X (zip_with (fmad a) X Y));
      cbn [heap]; try done.
    + by rewrite lookup_insert_ne.
    + by rewrite lookup_insert_eq.
    + rewrite length_zip_with. lia.
  - cbn [heap]. rewrite insert_insert_eq, lookup_insert_eq.
    rewrite lookup_insert_ne by done. split; [|done]. f_equal.
    apply list_eq. intros i. rewrite !lookup_zip_with.
    destruct (X !! i) as [xi|] eqn:E1, (Y !! i) as [yi|] eqn:E2; cbn;
      rewrite ?E1; done.
Qed.

(** * Further properties of the driver: the trace of a run *)

Lemma reads_after_iterations lanes clock N start k w :
  reads (after_iterations lanes clock N start k w) = (reads w + k)%nat.
Proof.
  induction k as [|k IH]; cbn [after_iterations iteration_step reads]; lia.
Qed.

Lemma calls_after_iterations lanes clock N start k w :
  calls (after_iterations lanes clock N start k w) = (calls w + k)%nat.
Proof.
  induction k as [|k IH]; cbn [after_iterations iteration_step calls]; lia.
Qed.

Section DriverTrace.
Variable lanes : nat.
Variable clock : nat -> Z.
Variable N : Z.
Variable T : Z.
Hypothesis HN : 43 <= N < 2 ^ 24.
Hypothesis Hl1 : (1 <= lanes)%nat.
Hypothesis Hl64 : Z.of_nat lanes < 2 ^ 64.

Lemma main_loop_body_log fuel start it w :
  initialised N w ->
  main_loop lanes clock N T (S fuel) start it w
  = (if 2 ^ 63 - 1 <=? it then Fault
     else if T <=? duration_cast_seconds (clock (reads w) - start)
     then Done (it + 1) (iteration_step lanes clock N start it w)
     else main_loop lanes clock N T fuel start (it + 1)
                    (iteration_step lanes clock N start it w)).
Proof.
  intros (Hx & Hyo & Hy).
  assert (N <= max_size) as Hmax.
  { assert (2 ^ 24 <= max_size) by (by vm_compute). lia. }
  cbn [main_loop].
  rewrite bind_eq. unfold on_mem at 1, vec_assign. rewrite Hyo.
  cbn [mem reads stdout calls heap log].
  rewrite bind_eq. unfold call_sve_saxpy, on_mem.
  cbn [mem reads stdout calls heap log].
  rewrite (sve_saxpy_log _ _ _ _ _ _ _ (ramp N) (descending N));
    cbn [heap log].
  2:{ by rewrite lookup_insert_ne. }
  2:{ by rewrite lookup_insert_eq. }
  2:{ pose proof (length_ramp N). pose proof (length_descending N). lia. }
  2:{ rewrite length_ramp; lia. }
  2:{ done. }
  2:{ done. }
  2:{ pose proof (length_ramp N). nia. }
  cbn [mem reads stdout calls heap log].
  rewrite insert_insert_eq.
  replace (length (ramp N)) with (Z.to_nat N)
    by (pose proof (length_ramp N); lia).
  destruct (2 ^ 63 - 1 <=? it); [done|].
  rewrite bind_eq. unfold now at 1. cbn [mem reads stdout calls heap log].
  rewrite Z.geb_leb. unfold iteration_step, progress_line, y_result.
  destruct (Z.rem (it + 1) 10 =? 0);
    rewrite bind_eq; unfold print, ret; cbn [mem reads stdout calls app];
    by destruct (T <=? _).
Qed.

Lemma initialised_after_iterations start k w :
  initialised N w -> initialised N (after_iterations lanes clock N start k w).
Proof.
  intros H. induction k as [|k IH]; [done|].
  cbn [after_iterations]. unfold iteration_step.
  by apply initialised_after_body.
Qed.

(** Whenever the loop returns, the world is the one after some number of
    bodies, the last of which read the clock at or past the target, all
    the earlier ones before it. *)
Lemma main_loop_trace fuel :
  forall start j w0 it' w',
    initialised N w0 ->
    main_loop lanes clock N T fuel start (Z.of_nat j)
              (after_iterations lanes clock N start j w0) = Done it' w' ->
    exists k,
      (j <= k < j + fuel)%nat
      /\ w' = after_iterations lanes clock N start (S k) w0
      /\ it' = Z.of_nat (S k)
      /\ T <= duration_cast_seconds (clock (reads w0 + k)%nat - start)
      /\ (forall i, (j <= i < k)%nat ->
            duration_cast_seconds (clock (reads w0 + i)%nat - start) < T).
Proof.
  induction fuel as [|fuel IH]; intros start j w0 it' w' Hinit Hrun; [done|].
  rewrite main_loop_body_log in Hrun
    by by apply initialised_after_iterations.
  rewrite reads_after_iterations in Hrun.
  destruct (2 ^ 63 - 1 <=? Z.of_nat j); [done|].
  destruct (Z.leb_spec T
              (duration_cast_seconds (clock (reads w0 + j)%nat - start)))
    as [Hstop|Hgo].
  - exists j. simplify_eq. split_and!; [lia | lia | done | lia | done | lia].
  - replace (Z.of_nat j + 1) with (Z.of_nat (S j)) in Hrun by lia.
    change (iteration_step lanes clock N start (Z.of_nat j)
              (after_iterations lanes clock N start j w0))
      with (after_iterations lanes clock N start (S j) w0) in Hrun.
    apply IH in Hrun as (k & Hk & -> & -> & Hstop & Hlow); [|done].
    exists k. split_and!; [lia | lia | done | done | done |].
    intros i Hi. destruct (decide (i = j)) as [->|Hne]; [done|].
    apply Hlow. lia.
Qed.

(** Whenever the driver returns, its final world is the one of the
    initialisation, some [k + 1] loop bodies and the report. *)
Lemma main_with_trace fuel z w :
  main_with lanes clock N T fuel world0 = Done z w ->
  exists k w1,
    main_init lanes N T world0 = Done tt w1
    /\ (k < fuel)%nat
    /\ T <= elapsed_seconds clock (S k)
    /\ (forall i, (i < k)%nat -> elapsed_seconds clock (S i) < T)
    /\ z = 0
    /\ let w3 := after_iterations lanes clock N (clock 0%nat) (S k)
                    (World (mem w1) 1 (stdout w1) (calls w1)) in
       w = World (mem w3) (S (reads w3))
                 (report_lines N (clock (reads w3) - clock 0%nat)
                               (Z.of_nat (S k)) ++ stdout w3)
                 (calls w3).
Proof.
  unfold main_with.
  destruct (main_init_correct lanes N T world0 ltac:(lia))
    as (w1 & Hinit & Hi1 & Hlog1 & Hr1 & Hc1 & Hout1).
  rewrite bind_eq, Hinit.
  rewrite bind_eq. unfold now at 1. rewrite Hr1. cbn [reads world0].
  set (w2 := World _ _ _ _).
  rewrite bind_eq.
  destruct (main_loop lanes clock N T fuel (clock 0%nat) 0 w2)
    as [it w3| | |] eqn:Hloop; try done.
  change 0 with (Z.of_nat 0) in Hloop.
  change w2 with (after_iterations lanes clock N (clock 0%nat) 0 w2) in Hloop.
  apply main_loop_trace in Hloop as (k & Hk & -> & -> & Hstop & Hlow);
    [|done].
  rewrite (main_report_correct lanes clock N HN Hl1).
  2:{ pose proof (initialised_after_iterations (clock 0%nat) k w2 Hi1)
        as (Hx & Hyo & _).
      cbn [after_iterations]. unfold iteration_step, computed.
      cbn [mem heap]. rewrite !lookup_insert_ne, lookup_insert_eq by done.
      done. }
  intros [= <- <-]. exists k, w1. subst w2. cbn [reads] in *.
  split_and!; [done | lia | done | | done | done].
  intros i Hi. apply Hlow. lia.
Qed.

End DriverTrace.

Lemma progress_values_app l1 l2 :
  progress_values (l1 ++ l2) = progress_values l2 ++ progress_values l1.
Proof. unfold progress_values. by rewrite reverse_app, omap_app. Qed.

Lemma progress_values_line clock start r it :
  progress_values (progress_line clock start r it)
  = if Z.rem it 10 =? 0
    then [(duration_cast_seconds (clock r - start), it)]
    else [].
Proof. unfold progress_line. by destruct (Z.rem it 10 =? 0). Qed.

Lemma progress_after_iterations lanes clock N k w0 :
  reads w0 = 1%nat ->
  progress_values
    (stdout (after_iterations lanes clock N (clock 0%nat) k w0))
  = progress_values (stdout w0)
      ++ ((fun j => (elapsed_seconds clock (Z.to_nat (10 * j)), 10 * j))
            <$> seqZ 1 (Z.of_nat k / 10)).
Proof.
  intros Hr. induction k as [|k IH].
  - cbn [after_iterations]. change (Z.of_nat 0 / 10) with 0.
    by rewrite seqZ_nil, app_nil_r.
  - cbn [after_iterations iteration_step stdout].
    rewrite progress_values_app, progress_values_line, IH,
      reads_after_iterations, Hr.
    rewrite <- app_assoc. f_equal.
    destruct (Z.eqb_spec (Z.rem (Z.of_nat k + 1) 10) 0) as [Hz|Hz];
      rewrite Z.rem_mod_nonneg in Hz by lia.
    + assert (Z.of_nat (S k) / 10 = Z.of_nat k / 10 + 1
              /\ 10 * (Z.of_nat k / 10 + 1) = Z.of_nat k + 1) as [-> H10].
      { Z.to_euclidean_division_equations. lia. }
      rewrite seqZ_app, fmap_app by (try apply Z.div_pos; lia).
      f_equal. rewrite seqZ_cons, seqZ_nil by lia.
      cbn [fmap list_fmap]. unfold elapsed_seconds.
      replace (1 + Z.of_nat k / 10) with (Z.of_nat k / 10 + 1) by lia.
      rewrite H10.
      by replace (Z.to_nat (Z.of_nat k + 1)) with (1 + k)%nat by lia.
    + assert (Z.of_nat (S k) / 10 = Z.of_nat k / 10) as ->.
      { Z.to_euclidean_division_equations. lia. }
      by rewrite app_nil_r.
Qed.

Lemma progress_values_report N ticks it :
  progress_values (report_lines N ticks it) = [].
Proof. reflexivity. Qed.

(** X4. Whenever the driver returns, it returns 0; the elapsed time it
    read after its last kernel call had reached the target, every earlier
    reading of the loop was below the target, and it read the clock once
    per kernel call and twice more (at the start and for the report). *)
Theorem main_stops_at_first_reading (lanes : nat) (clock : nat -> Z)
    (N T : Z) (fuel : nat) (z : Z) (w : world) :
  43 <= N < 2 ^ 24 ->
  (1 <= lanes)%nat -> Z.of_nat lanes < 2 ^ 64 ->
  main_with lanes clock N T fuel world0 = Done z w ->
  z = 0
  /\ T <= elapsed_seconds clock (calls w)
  /\ (forall j, (1 <= j < calls w)%nat -> elapsed_seconds clock j < T)
  /\ reads w = (calls w + 2)%nat.
Proof.
  intros HN Hl1 Hl64 Hmain.
  destruct (main_with_trace lanes clock N T HN Hl1 Hl64 fuel z w Hmain)
    as (k & w1 & Hinit & _ & Hstop & Hlow & -> & ->).
  destruct (main_init_correct lanes N T world0 ltac:(lia))
    as (w1' & Hinit' & _ & _ & _ & Hc1 & _).
  rewrite Hinit in Hinit'. injection Hinit' as <-.
  cbv zeta. cbn [reads calls].
  rewrite calls_after_iterations, reads_after_iterations.
  cbn [reads calls]. rewrite Hc1. cbn [world0 calls].
  split_and!; [done | done | | lia].
  intros j Hj. destruct j as [|j]; [lia|]. apply Hlow. lia.
Qed.

(** X5. Whenever the driver returns, its progress lines are exactly those
    of the iterations 10, 20, ... up to the number of kernel calls made,
    in this order, each with the elapsed seconds read after that
    iteration. *)
Theorem main_progress_every_tenth (lanes : nat) (clock : nat -> Z)
    (N T : Z) (fuel : nat) (z : Z) (w : world) :
  43 <= N < 2 ^ 24 ->
  (1 <= lanes)%nat -> Z.of_nat lanes < 2 ^ 64 ->
  main_with lanes clock N T fuel world0 = Done z w ->
  progress_values (stdout w)
  = (fun j => (elapsed_seconds clock (Z.to_nat (10 * j)), 10 * j))
      <$> seqZ 1 (Z.of_nat (calls w) / 10).
Proof.
  intros HN Hl1 Hl64 Hmain.
  destruct (main_with_trace lanes clock N T HN Hl1 Hl64 fuel z w Hmain)
    as (k & w1 & Hinit & _ & _ & _ & _ & ->).
  destruct (main_init_correct lanes N T world0 ltac:(lia))
    as (w1' & Hinit' & _ & _ & _ & Hc1 & Hout1).
  rewrite Hinit in Hinit'. injection Hinit' as <-.
  cbv zeta. cbn [stdout calls].
  rewrite progress_values_app, progress_after_iterations by done.
  rewrite calls_after_iterations. cbn [stdout calls].
  rewrite Hout1, Hc1. cbn [world0 calls stdout app].
  rewrite progress_values_report, app_nil_r. reflexivity.
Qed.

(** * Properties of the CPU workloads *)

Lemma ll_in_range {St} (z : Z) (s : St) :
  - 2 ^ 63 <= z <= 2 ^ 63 - 1 -> ll z s = Done z s.
Proof.
  intros H. unfold ll.
  by replace ((- 2 ^ 63 <=? z) && (z <=? 2 ^ 63 - 1)) with true
    by (symmetry; apply andb_true_intro; lia).
Qed.

Lemma ll_overflow {St} (z : Z) (s : St) :
  z < - 2 ^ 63 \/ 2 ^ 63 - 1 < z -> ll z s = Fault.
Proof.
  intros H. unfold ll.
  by replace ((- 2 ^ 63 <=? z) && (z <=? 2 ^ 63 - 1)) with false
    by (symmetry; apply andb_false_iff; lia).
Qed.

Lemma for_loop_eq {St A} fuel i hi (body : Z -> A -> M St A) acc :
  for_loop fuel i hi body acc
  = if i <? hi then
      match fuel with
      | O => out_of_fuel
      | S fuel' =>
          let! acc' := body i acc in
          for_loop fuel' (i + 1) hi body acc'
      end
    else ret acc.
Proof. by destruct fuel. Qed.

Lemma for_loop_skip {St A} fuel i hi (body : Z -> A -> M St A) acc s :
  hi <= i -> for_loop fuel i hi body acc s = Done acc s.
Proof.
  intros H. rewrite for_loop_eq.
  by replace (i <? hi) with false by (symmetry; lia).
Qed.

(** A loop whose bodies keep an invariant returns, with the invariant at
    the upper bound. *)
Lemma for_loop_inv {St A} (P : Z -> A -> St -> Prop) hi
    (body : Z -> A -> M St A) :
  (forall i acc s, i < hi -> P i acc s ->
     exists acc' s', body i acc s = Done acc' s' /\ P (i + 1) acc' s') ->
  forall fuel i acc s,
    i <= hi -> hi - i <= Z.of_nat fuel -> P i acc s ->
    exists acc' s',
      for_loop fuel i hi body acc s = Done acc' s' /\ P hi acc' s'.
Proof.
  intros Hbody. induction fuel as [|fuel IH]; intros i acc s Hi Hf HP.
  - rewrite for_loop_skip by lia. assert (i = hi) as -> by lia. eauto.
  - rewrite for_loop_eq. destruct (Z.ltb_spec i hi) as [Hlt|Hge].
    + destruct (Hbody i acc s Hlt HP) as (acc' & s' & Hb & HP').
      rewrite bind_eq, Hb. apply IH; [lia | lia | done].
    + assert (i = hi) as -> by lia. eauto.
Qed.

Lemma Fib_SS k : Fib (S (S k)) = Fib (S k) + Fib k.
Proof.
  unfold Fib. cbn [fib_pair]. destruct (fib_pair k) as [a b]. cbn. lia.
Qed.

Lemma Fib_nonneg k : 0 <= Fib k /\ 0 <= Fib (S k).
Proof.
  induction k as [|k [IH1 IH2]]; [unfold Fib; cbn; lia|].
  rewrite Fib_SS. lia.
Qed.

Lemma Fib_mono k j : (k <= j)%nat -> Fib k <= Fib j.
Proof.
  induction 1 as [|j _ IH]; [lia|].
  destruct j as [|j]; [unfold Fib in *; cbn in *; lia|].
  rewrite Fib_SS. pose proof (Fib_nonneg j). lia.
Qed.

Lemma fibonacci_base depth n calls :
  n <= 1 -> fibonacci (S depth) n calls = Done n (calls + 1).
Proof.
  intros H. cbn [fibonacci].
  by replace (n <=? 1) with true by (symmetry; lia).
Qed.

Lemma fibonacci_step depth n calls :
  1 < n ->
  fibonacci (S depth) n calls
  = (let! f1 := fibonacci depth (n - 1) in
     let! f2 := fibonacci depth (n - 2) in
     ll (f1 + f2)) (calls + 1).
Proof.
  intros H. cbn [fibonacci].
  by replace (n <=? 1) with false by (symmetry; lia).
Qed.

Lemma fibonacci_correct_pair k :
  (forall depth calls,
     (k <= 92)%nat -> (Nat.max k 1 <= depth)%nat ->
     fibonacci depth (Z.of_nat k) calls
     = Done (Fib k) (calls + (2 * Fib (S k) - 1)))
  /\ (forall depth calls,
        (S k <= 92)%nat -> (S k <= depth)%nat ->
        fibonacci depth (Z.of_nat (S k)) calls
        = Done (Fib (S k)) (calls + (2 * Fib (S (S k)) - 1))).
Proof.
  induction k as [|k [IH1 IH2]].
  - split; intros depth calls Hk Hd; (destruct depth as [|depth]; [lia|]);
      rewrite fibonacci_base by lia; f_equal.
  - split; [intros depth calls Hk Hd; apply IH2; lia|].
    intros depth calls Hk Hd.
    destruct depth as [|depth]; [lia|].
    rewrite fibonacci_step by lia.
    replace (Z.of_nat (S (S k)) - 1) with (Z.of_nat (S k)) by lia.
    replace (Z.of_nat (S (S k)) - 2) with (Z.of_nat k) by lia.
    rewrite bind_eq, IH2 by lia. rewrite bind_eq, IH1 by lia.
    rewrite ll_in_range.
    + rewrite (Fib_SS (S k)), (Fib_SS k). f_equal; lia.
    + pose proof (Fib_nonneg k). pose proof (Fib_mono (S (S k)) 92 Hk) as H92.
      rewrite (Fib_SS k) in H92.
      assert (Fib 92 <= 2 ^ 63 - 1) by (vm_compute; discriminate). lia.
Qed.

Lemma fibonacci_correct k depth calls :
  (k <= 92)%nat -> (Nat.max k 1 <= depth)%nat ->
  fibonacci depth (Z.of_nat k) calls
  = Done (Fib k) (calls + (2 * Fib (S k) - 1)).
Proof. intros. by apply fibonacci_correct_pair. Qed.

Lemma fibonacci_overflow k depth calls :
  (93 <= k)%nat -> (k <= depth)%nat ->
  fibonacci depth (Z.of_nat k) calls = Fault.
Proof.
  intros Hk. revert depth calls.
  induction Hk as [|k Hk IH]; intros depth calls Hd;
    (destruct depth as [|depth]; [lia|]); rewrite fibonacci_step by lia.
  - replace (Z.of_nat 93 - 1) with (Z.of_nat 92) by lia.
    replace (Z.of_nat 93 - 2) with (Z.of_nat 91) by lia.
    rewrite bind_eq, fibonacci_correct by lia.
    rewrite bind_eq, fibonacci_correct by lia.
    apply ll_overflow. right. rewrite <- Fib_SS. vm_compute. reflexivity.
  - replace (Z.of_nat (S k) - 1) with (Z.of_nat k) by lia.
    by rewrite bind_eq, IH by lia.
Qed.

(** X6. For [n] from 0 to 92, [fibonacci(n)] returns the [n]-th Fibonacci
    number without overflow, making [2 * Fib(n + 1) - 1] calls in all, on
    a stack that allows a recursion of depth [max n 1]. *)
Theorem fibonacci_computes_fib (n : Z) (depth : nat) (calls : Z) :
  0 <= n <= 92 -> Z.max n 1 <= Z.of_nat depth ->
  fibonacci depth n calls
  = Done (Fib (Z.to_nat n)) (calls + (2 * Fib (S (Z.to_nat n)) - 1)).
Proof.
  intros Hn Hd. rewrite <- (Z2Nat.id n) at 1 by lia.
  apply fibonacci_correct; lia.
Qed.

(** X7. For [n] of 93 or more, [fibonacci(n)] adds two values whose sum
    is outside [long long]: its behaviour is undefined. *)
Theorem fibonacci_overflows (n : Z) (depth : nat) (calls : Z) :
  93 <= n -> n <= Z.of_nat depth ->
  fibonacci depth n calls = Fault.
Proof.
  intros Hn Hd. rewrite <- (Z2Nat.id n) by lia.
  apply fibonacci_overflow; lia.
Qed.


(** X8. [recursive_workload], given stack for a recursion of depth 39,
    returns without overflow: the sum of [fibonacci(30)] to [fibonacci(39)]
    it accumulates is 164233872, and it makes 531471964 calls of
    [fibonacci]. *)
Theorem recursive_workload_sum (depth : nat) (calls : Z) :
  (39 <= depth)%nat ->
  recursive_workload depth calls = Done 164233872 (calls + 531471964).
Proof.
  intros Hd. unfold recursive_workload.
  assert (Hstep : forall (k : nat) fuel sum c,
             (30 <= k < 40)%nat -> 0 <= sum <= 2 ^ 61 ->
             for_loop (S fuel) (Z.of_nat k) 40
               (fun i sum => let! f := fibonacci depth i in ll (sum + f))
               sum c
             = for_loop fuel (Z.of_nat (S k)) 40
                 (fun i sum => let! f := fibonacci depth i in ll (sum + f))
                 (sum + Fib k) (c + (2 * Fib (S k) - 1))).
  { intros k fuel sum c Hk Hs. rewrite for_loop_eq.
    replace (Z.of_nat k <? 40) with true by (symmetry; lia).
    rewrite bind_eq, bind_eq, fibonacci_correct by lia.
    pose proof (Fib_nonneg k). pose proof (Fib_mono k 40 ltac:(lia)).
    assert (Fib 40 <= 2 ^ 61) by (vm_compute; discriminate).
    rewrite ll_in_range by lia.
    by replace (Z.of_nat k + 1) with (Z.of_nat (S k)) by lia. }
  change 30 with (Z.of_nat 30).
  do 10 (rewrite Hstep by first [lia | (vm_compute; split; discriminate)]).
  rewrite for_loop_skip by lia. f_equal.
  rewrite <- !Z.add_assoc. f_equal.
Qed.

Lemma char_set_in i v (s : list Z) :
  0 <= i < Z.of_nat (length s) ->
  char_set i v s = Done tt (<[Z.to_nat i := v]> s).
Proof.
  intros H. unfold char_set.
  by replace ((0 <=? i) && (i <? Z.of_nat (length s))) with true
    by (symmetry; apply andb_true_intro; lia).
Qed.

Lemma char_get_in i c (s : list Z) :
  0 <= i -> s !! Z.to_nat i = Some c -> char_get i s = Done c s.
Proof.
  intros H Hc. unfold char_get. rewrite Hc.
  by replace (0 <=? i) with true by (symmetry; lia).
Qed.

Lemma to_char_range cs v : - 128 <= to_char cs v <= 255.
Proof.
  unfold to_char. pose proof (Z.mod_pos_bound v 256 ltac:(lia)).
  destruct cs; cbn [andb]; [|lia].
  destruct (Z.leb_spec 128 (v mod 256)); lia.
Qed.

Lemma sumZ_app l k : sumZ (l ++ k) = sumZ l + sumZ k.
Proof.
  unfold sumZ. induction l as [|c l IH]; cbn; [done|]. rewrite IH. lia.
Qed.

Lemma byte_ramp_S cs i :
  0 <= i ->
  byte_ramp cs (i + 1) = byte_ramp cs i ++ [to_char cs (i mod 256)].
Proof.
  intros H. unfold byte_ramp.
  by rewrite seqZ_app, fmap_app by lia.
Qed.

Lemma sumZ_byte_ramp_S cs i :
  0 <= i ->
  sumZ (byte_ramp cs (i + 1))
  = sumZ (byte_ramp cs i) + to_char cs (i mod 256).
Proof.
  intros H. rewrite byte_ramp_S, sumZ_app by done. unfold sumZ. cbn. lia.
Qed.

Lemma sumZ_byte_ramp_range cs i :
  0 <= i -> - 128 * i <= sumZ (byte_ramp cs i) <= 255 * i.
Proof.
  intros H. rewrite <- (Z2Nat.id i H). clear H.
  induction (Z.to_nat i) as [|n IH]; [done|].
  rewrite Nat2Z.inj_succ, <- Z.add_1_r, sumZ_byte_ramp_S by lia.
  pose proof (to_char_range cs (Z.of_nat n mod 256)). lia.
Qed.

Lemma length_byte_ramp cs size :
  length (byte_ramp cs size) = Z.to_nat size.
Proof. unfold byte_ramp. by rewrite length_fmap, length_seqZ. Qed.

Lemma byte_ramp_lookup cs size i :
  0 <= i < size ->
  byte_ramp cs size !! Z.to_nat i = Some (to_char cs (i mod 256)).
Proof.
  intros H. unfold byte_ramp. rewrite list_lookup_fmap.
  replace (seqZ 0 size !! Z.to_nat i) with (Some i); [done|].
  symmetry. apply lookup_seqZ. lia.
Qed.

(** The write loop of [sequential_memory_access]. *)
Lemma sequential_fill cs size (s : list Z) :
  0 <= size -> length s = Z.to_nat size ->
  for_loop (Z.to_nat size) 0 size
           (fun i _ => char_set i (to_char cs (Z.land i 255))) tt s
  = Done tt (byte_ramp cs size).
Proof.
  intros Hsize Hlen.
  destruct (for_loop_inv
              (fun i (_ : unit) (m : list Z) =>
                 0 <= i <= size /\ length m = Z.to_nat size
                 /\ take (Z.to_nat i) m = byte_ramp cs i)
              size
              (fun i _ => char_set i (to_char cs (Z.land i 255))))
    with (fuel := Z.to_nat size) (i := 0) (acc := tt) (s := s)
    as ([] & m & Hrun & _ & Hm & Htake); try lia.
  - intros i [] m Hi (Hi0 & Hm & Htake).
    exists tt, (<[Z.to_nat i := to_char cs (Z.land i 255)]> m).
    rewrite char_set_in by lia. split; [done|].
    split; [lia|]. split; [by rewrite length_insert|].
    replace (Z.to_nat (i + 1)) with (S (Z.to_nat i)) by lia.
    erewrite take_S_r
      by (apply list_lookup_insert_eq; lia).
    rewrite take_insert_ge, Htake, byte_ramp_S by lia.
    change 255 with (Z.ones 8). by rewrite Z.land_ones by lia.
  - split; [lia|]. split; [done|]. by rewrite take_0.
  - rewrite Hrun. f_equal. rewrite <- Htake. by rewrite take_ge by lia.
Qed.

(** One pass of its read loop. *)
Lemma sequential_pass cs size base :
  0 <= size ->
  - 2 ^ 63 <= base - 128 * size -> base + 255 * size <= 2 ^ 63 - 1 ->
  for_loop (Z.to_nat size) 0 size
           (fun i sum => let! c := char_get i in ll (sum + c))
           base (byte_ramp cs size)
  = Done (base + sumZ (byte_ramp cs size)) (byte_ramp cs size).
Proof.
  intros Hsize Hlo Hhi.
  destruct (for_loop_inv
              (fun i sum (m : list Z) =>
                 0 <= i <= size /\ m = byte_ramp cs size
                 /\ sum = base + sumZ (byte_ramp cs i))
              size
              (fun i sum => let! c := char_get i in ll (sum + c)))
    with (fuel := Z.to_nat size) (i := 0) (acc := base)
         (s := byte_ramp cs size)
    as (sum & m & Hrun & _ & -> & ->); try lia.
  - intros i sum m Hi (Hi0 & -> & ->).
    eexists _, _. rewrite bind_eq.
    erewrite char_get_in by (try apply byte_ramp_lookup; lia).
    pose proof (sumZ_byte_ramp_range cs (i + 1) ltac:(lia)) as Hr.
    rewrite sumZ_byte_ramp_S in Hr by lia.
    rewrite ll_in_range by lia. split; [done|].
    split; [lia|]. split; [done|]. rewrite sumZ_byte_ramp_S by lia. lia.
  - split; [lia|]. split; [done|].
    change (sumZ (byte_ramp cs 0)) with 0. lia.
  - done.
Qed.

Lemma sequential_memory_access_run cs size s0 :
  0 <= size -> 2550 * size < 2 ^ 63 ->
  sequential_memory_access cs size s0
  = Done (10 * sumZ (byte_ramp cs size)) (byte_ramp cs size).
Proof.
  intros Hsize Hbound. unfold sequential_memory_access.
  rewrite bind_eq. unfold char_vector.
  replace (2 ^ 63 - 1 <? size) with false by (symmetry; lia).
  rewrite bind_eq, sequential_fill by (by rewrite ?length_replicate).
  pose proof (sumZ_byte_ramp_range cs size Hsize) as Hr.
  destruct (for_loop_inv
              (fun iter sum (m : list Z) =>
                 0 <= iter <= 10 /\ m = byte_ramp cs size
                 /\ sum = iter * sumZ (byte_ramp cs size))
              10
              (fun iter sum =>
                 for_loop (Z.to_nat size) 0 size
                          (fun i sum => let! c := char_get i in ll (sum + c))
                          sum))
    with (fuel := 10%nat) (i := 0) (acc := 0) (s := byte_ramp cs size)
    as (sum & m & Hrun & _ & -> & ->); try lia.
  - intros iter sum m Hi (Hi0 & -> & ->).
    eexists _, _. rewrite sequential_pass by nia. split; [done|].
    split; [lia|]. split; [done|]. lia.
  - done.
  - done.
Qed.

(** 256 consecutive bytes of the ramp add up to the same sum. *)
Lemma sumZ_byte_ramp_256 cs (q : nat) :
  sumZ (byte_ramp cs (256 * Z.of_nat q))
  = Z.of_nat q * (if cs then - 128 else 32640).
Proof.
  induction q as [|q IH]; [done|].
  replace (256 * Z.of_nat (S q)) with (256 * Z.of_nat q + 256) by lia.
  unfold byte_ramp in *.
  rewrite seqZ_app, fmap_app, sumZ_app, IH by lia.
  replace (seqZ (0 + 256 * Z.of_nat q) 256)
    with (Z.add (256 * Z.of_nat q) <$> seqZ 0 256)
    by (rewrite fmap_add_seqZ; f_equal; lia).
  rewrite <- list_fmap_compose.
  rewrite (list_fmap_ext _ (fun i => to_char cs (i mod 256)) (seqZ 0 256)).
  - replace (sumZ ((fun i => to_char cs (i mod 256)) <$> seqZ 0 256))
      with (if cs then - 128 else 32640)
      by (by destruct cs; vm_compute).
    lia.
  - intros _ i _. cbn. f_equal.
    rewrite Z.add_comm, Z.mul_comm. apply Z.mod_add. lia.
Qed.



Lemma to_char_0 cs : to_char cs 0 = 0.
Proof. by destruct cs. Qed.


(** X12. With [size] 0 the first access of [random_memory_access] is
    outside the (empty) vector, whatever index is drawn. *)
Theorem random_memory_access_empty_faults (cs : bool) (draw : nat -> Z)
    (s0 : list Z) :
  random_memory_access cs draw 0 s0 = Fault.
Proof.
  unfold random_memory_access. rewrite bind_eq. unfold char_vector.
  change (2 ^ 63 - 1 <? 0) with false. cbv iota.
  rewrite bind_eq. change (replicate (Z.to_nat 0) 0) with (@nil Z).
  cbv iota. change (length (@nil Z)) with 0%nat.
  change (replicate 0 0) with (@nil Z).
  rewrite for_loop_eq. change (0 <? 10000000) with true. cbv iota.
  destruct (Z.to_nat 10000000) as [|fuel] eqn:E; [lia|].
  rewrite bind_eq. cbn zeta. rewrite bind_eq.
  unfold char_get. by rewrite lookup_nil.
Qed.

Lemma branch_predictable_run iterations :
  iterations <= 2 ^ 31 - 1 ->
  branch_predictable iterations tt = Done (alternating_sum iterations) tt.
Proof.
  intros Hn. unfold branch_predictable.
  destruct (Z.le_gt_cases iterations 0) as [Hle|Hpos].
  { rewrite for_loop_skip by lia. unfold alternating_sum.
    by replace (iterations <=? 0) with true by (symmetry; lia). }
  destruct (for_loop_inv
              (fun i sum (_ : unit) => 0 <= i /\ sum = alternating_sum i)
              iterations
              (fun i sum =>
                 if Z.rem i 2 =? 0 then ll (sum + i) else ll (sum - i)))
    with (fuel := Z.to_nat iterations) (i := 0) (acc := 0) (s := tt)
    as (sum & [] & Hrun & _ & ->); try lia.
  - intros i sum [] Hi (Hi0 & ->).
    rewrite Z.rem_mod_nonneg by lia. unfold alternating_sum.
    destruct (Z.leb_spec i 0), (Z.leb_spec (i + 1) 0),
      (Z.eqb_spec (i mod 2) 0), (Z.eqb_spec ((i + 1) mod 2) 0);
      try (exfalso; Z.to_euclidean_division_equations; lia);
      (rewrite ll_in_range
         by (Z.to_euclidean_division_equations; lia));
      eexists _, tt; (split; [reflexivity|]); (split; [lia|]);
        Z.to_euclidean_division_equations; lia.
  - done.
  - done.
Qed.

(** X13. The first loop of [branch_intensive] cannot overflow for any
    [int] argument and leaves the alternating sum [0 - 1 + 2 - ...] of the
    integers below [iterations]: [-(iterations / 2)] for an even count,
    [iterations / 2] for an odd one, 0 for a count of 0 or less. For fewer
    than 10 iterations the second loop has no trip and this is the final
    [sum]. *)
Theorem branch_intensive_predictable_sum (draw : nat -> Z)
    (iterations : Z) :
  iterations <= 2 ^ 31 - 1 ->
  branch_predictable iterations tt = Done (alternating_sum iterations) tt
  /\ (iterations < 10 ->
      branch_intensive draw iterations tt
      = Done (alternating_sum iterations) tt).
Proof.
  intros Hn. split; [by apply branch_predictable_run|].
  intros Hsmall. unfold branch_intensive.
  rewrite bind_eq, branch_predictable_run by done.
  unfold branch_unpredictable. apply for_loop_skip.
  Z.to_euclidean_division_equations. lia.
Qed.

Lemma alternating_sum_abs n : 0 <= n -> Z.abs (alternating_sum n) = n / 2.
Proof.
  intros H. unfold alternating_sum.
  destruct (Z.leb_spec n 0), (Z.eqb_spec (n mod 2) 0);
    Z.to_euclidean_division_equations; lia.
Qed.

Lemma doubling_overflows draw hi (d : nat) :
  forall fuel i s,
    0 <= i -> i + Z.of_nat d <= hi -> hi - i <= Z.of_nat fuel ->
    (forall j, (Z.to_nat i <= j < Z.to_nat i + d)%nat -> 30 <= draw j < 60) ->
    - 2 ^ 63 <= s <= 2 ^ 63 - 1 ->
    2 ^ 63 < Z.abs s * 2 ^ Z.of_nat d ->
    for_loop fuel i hi (branch_unpredictable_body draw) s tt = Fault.
Proof.
  induction d as [|d IH]; intros fuel i s Hi Hhi Hfuel Hdraw Hs Hbig.
  - change (2 ^ Z.of_nat 0) with 1 in Hbig. lia.
  - rewrite for_loop_eq.
    replace (i <? hi) with true by (symmetry; lia).
    destruct fuel as [|fuel]; [lia|].
    rewrite bind_eq. unfold branch_unpredictable_body. cbn zeta.
    pose proof (Hdraw (Z.to_nat i) ltac:(lia)) as Hd.
    replace (draw (Z.to_nat i) <? 30) with false by (symmetry; lia).
    replace (draw (Z.to_nat i) <? 60) with true by (symmetry; lia).
    unfold ll.
    destruct ((- 2 ^ 63 <=? s * 2) && (s * 2 <=? 2 ^ 63 - 1)) eqn:E;
      [|done].
    apply andb_prop in E as [E1 E2]. cbn [ret].
    apply IH; try lia.
    + intros j Hj. apply Hdraw. lia.
    + rewrite Nat2Z.inj_succ, Z.pow_succ_r in Hbig by lia. lia.
Qed.

(** X14. [branch_intensive] can overflow its [long long] accumulator:
    when the first [k] draws of the second loop all fall in the doubling
    branch and [iterations / 2 * 2^k] exceeds [2^63], the behaviour is
    undefined. *)
Theorem branch_intensive_can_overflow (draw : nat -> Z) (iterations : Z)
    (k : nat) :
  iterations <= 2 ^ 31 - 1 ->
  Z.of_nat k <= iterations / 10 ->
  (forall j, (j < k)%nat -> 30 <= draw j < 60) ->
  2 ^ 63 < iterations / 2 * 2 ^ Z.of_nat k ->
  branch_intensive draw iterations tt = Fault.
Proof.
  intros Hn Hk Hdraw Hbig.
  assert (0 < iterations).
  { destruct (Z.lt_ge_cases 0 iterations) as [|Hle]; [done|].
    assert (iterations / 2 <= 0)
      by (Z.to_euclidean_division_equations; lia).
    assert (0 < 2 ^ Z.of_nat k) by (apply Z.pow_pos_nonneg; lia). nia. }
  unfold branch_intensive.
  rewrite bind_eq, branch_predictable_run by done.
  unfold branch_unpredictable.
  rewrite Z.quot_div_nonneg by lia.
  pose proof (alternating_sum_abs iterations ltac:(lia)) as Habs.
  apply (doubling_overflows draw _ k); try lia.
  - intros j Hj. apply Hdraw. lia.
  - assert (iterations / 2 <= 2 ^ 31)
      by (Z.to_euclidean_division_equations; lia). lia.
Qed.

Lemma doublings_S draw k :
  doublings draw (S k)
  = (doublings draw k
     + if (30 <=? draw k)%Z && (draw k <? 60)%Z then 1 else 0)%nat.
Proof. done. Qed.

Lemma doublings_mono draw k j :
  (k <= j)%nat -> (doublings draw k <= doublings draw j)%nat.
Proof. induction 1; [done|]. rewrite doublings_S. lia. Qed.

(** X15. [branch_intensive] returns, without overflow, whenever the draws
    lie in [0, 100] and the bound
    [(iterations / 2 + 89 * (iterations / 10)) * 2^d], with [d] the number
    of draws that fall in the doubling branch, fits in a [long long]; the
    accumulated [sum] stays within that bound. *)
Theorem branch_intensive_defined (draw : nat -> Z) (iterations : Z) :
  0 <= iterations <= 2 ^ 31 - 1 ->
  (forall j, 0 <= draw j <= 100) ->
  (iterations / 2 + 89 * (iterations / 10))
  * 2 ^ Z.of_nat (doublings draw (Z.to_nat (iterations / 10)))
  <= 2 ^ 63 - 1 ->
  exists sum,
    branch_intensive draw iterations tt = Done sum tt
    /\ Z.abs sum
       <= (iterations / 2 + 89 * (iterations / 10))
          * 2 ^ Z.of_nat (doublings draw (Z.to_nat (iterations / 10))).
Proof.
  intros Hn Hdraw Hbound.
  unfold branch_intensive.
  rewrite bind_eq, branch_predictable_run by lia.
  unfold branch_unpredictable. rewrite Z.quot_div_nonneg by lia.
  set (c := iterations / 2) in *. set (m := iterations / 10) in *.
  assert (0 <= c) by (subst c; Z.to_euclidean_division_equations; lia).
  assert (0 <= m) by (subst m; Z.to_euclidean_division_equations; lia).
  set (B := fun i : Z =>
              (c + 89 * i) * 2 ^ Z.of_nat (doublings draw (Z.to_nat i))).
  assert (Hmono : forall i j, 0 <= i <= j -> B i <= B j).
  { intros i j Hij. unfold B.
    pose proof (doublings_mono draw (Z.to_nat i) (Z.to_nat j) ltac:(lia)).
    assert (2 ^ Z.of_nat (doublings draw (Z.to_nat i))
            <= 2 ^ Z.of_nat (doublings draw (Z.to_nat j)))
      by (apply Z.pow_le_mono_r; lia).
    assert (0 < 2 ^ Z.of_nat (doublings draw (Z.to_nat i)))
      by (apply Z.pow_pos_nonneg; lia).
    nia. }
  destruct (for_loop_inv
              (fun i sum (_ : unit) => 0 <= i /\ Z.abs sum <= B i)
              m (branch_unpredictable_body draw))
    with (fuel := Z.to_nat m) (i := 0) (acc := alternating_sum iterations)
         (s := tt)
    as (sum & [] & Hrun & _ & Hsum); try lia.
  - intros i sum [] Hi (Hi0 & Hsum).
    pose proof (Hdraw (Z.to_nat i)) as Hd.
    pose proof (Hmono (i + 1) m ltac:(lia)) as Hnext.
    assert (HB : B (i + 1)
                 = (c + 89 * i + 89)
                   * (2 ^ Z.of_nat (doublings draw (Z.to_nat i))
                      * if (30 <=? draw (Z.to_nat i))
                           && (draw (Z.to_nat i) <? 60)
                        then 2 else 1)).
    { unfold B. replace (Z.to_nat (i + 1)) with (S (Z.to_nat i)) by lia.
      rewrite doublings_S, Nat2Z.inj_add, Z.pow_add_r by lia.
      f_equal; [lia|]. f_equal.
      by destruct ((30 <=? draw (Z.to_nat i)) && (draw (Z.to_nat i) <? 60)). }
    assert (Hp : 0 < 2 ^ Z.of_nat (doublings draw (Z.to_nat i)))
      by (apply Z.pow_pos_nonneg; lia).
    unfold B in Hsum. fold m in Hbound. fold (B m) in Hbound.
    unfold branch_unpredictable_body. cbn zeta.
    destruct (Z.lt_ge_cases (draw (Z.to_nat i)) 30);
      [|destruct (Z.lt_ge_cases (draw (Z.to_nat i)) 60);
        [|destruct (Z.lt_ge_cases (draw (Z.to_nat i)) 90)]];
      repeat
        match goal with
        | |- context [draw (Z.to_nat i) <? ?v] =>
            first [ replace (draw (Z.to_nat i) <? v) with true
                      by (symmetry; lia)
                  | replace (draw (Z.to_nat i) <? v) with false
                      by (symmetry; lia) ]
        end.
    + replace ((30 <=? draw (Z.to_nat i)) && (draw (Z.to_nat i) <? 60))
        with false in HB by (symmetry; apply andb_false_iff; lia).
      assert (Z.abs (sum + draw (Z.to_nat i)) <= B (i + 1)) by nia.
      rewrite ll_in_range by lia. eexists _, tt.
      split; [reflexivity|]. split; [lia | done].
    + replace ((30 <=? draw (Z.to_nat i)) && (draw (Z.to_nat i) <? 60))
        with true in HB by (symmetry; apply andb_true_intro; lia).
      assert (Z.abs (sum * 2) <= B (i + 1)).
      { rewrite HB. replace (Z.abs (sum * 2)) with (2 * Z.abs sum) by lia.
        lia. }
      rewrite ll_in_range by lia. eexists _, tt.
      split; [reflexivity|]. split; [lia | done].
    + replace ((30 <=? draw (Z.to_nat i)) && (draw (Z.to_nat i) <? 60))
        with false in HB by (symmetry; apply andb_false_iff; lia).
      assert (Z.abs (sum - draw (Z.to_nat i)) <= B (i + 1)) by nia.
      rewrite ll_in_range by lia. eexists _, tt.
      split; [reflexivity|]. split; [lia | done].
    + replace ((30 <=? draw (Z.to_nat i)) && (draw (Z.to_nat i) <? 60))
        with false in HB by (symmetry; apply andb_false_iff; lia).
      assert (Z.abs (Z.quot sum 2) <= Z.abs sum)
        by (Z.to_euclidean_division_equations; lia).
      assert (Z.abs (Z.quot sum 2) <= B (i + 1)) by nia.
      rewrite ll_in_range by lia. eexists _, tt.
      split; [reflexivity|]. split; [lia | done].
  - split; [lia|].
    rewrite alternating_sum_abs by lia. fold c. unfold B.
    change (Z.to_nat 0) with 0%nat. cbn [doublings].
    change (2 ^ Z.of_nat 0) with 1. lia.
  - exists sum. split; [done|]. done.
Qed.

(** ** Matrix multiplication *)

Lemma length_tab {A} n (f : nat -> A) : length (tab n f) = n.
Proof. unfold tab. by rewrite length_fmap, length_seq. Qed.

Lemma lookup_tab {A} n (f : nat -> A) i :
  (i < n)%nat -> tab n f !! i = Some (f i).
Proof.
  intros H. unfold tab. rewrite list_lookup_fmap, lookup_seq_lt by done.
  done.
Qed.

Lemma tab_ext {A} n (f g : nat -> A) :
  (forall i, (i < n)%nat -> f i = g i) -> tab n f = tab n g.
Proof.
  intros H. unfold tab. apply list_fmap_ext.
  intros k i Hk. apply lookup_seq in Hk as [-> Hk]. by apply H.
Qed.

Lemma insert_tab {A} n (f : nat -> A) i v :
  (i < n)%nat ->
  <[i := v]> (tab n f) = tab n (fun i' => if decide (i' = i) then v else f i').
Proof.
  intros H. apply list_eq. intros k.
  destruct (decide (k < n)%nat) as [Hk|Hk].
  - rewrite (lookup_tab n _ k) by done.
    destruct (decide (k = i)) as [->|Hne].
    + by rewrite list_lookup_insert_eq by (by rewrite length_tab).
    + by rewrite list_lookup_insert_ne, lookup_tab by done.
  - rewrite !lookup_ge_None_2;
      rewrite ?length_insert, ?length_tab; [done | lia | lia].
Qed.

Lemma tab_const {A} n (c : A) : tab n (fun _ => c) = replicate n c.
Proof.
  unfold tab. rewrite <- (length_seq n 0) at 2. by apply const_fmap.
Qed.

Lemma tab2_ext {A} n (f g : nat -> nat -> A) :
  (forall i j, (i < n)%nat -> (j < n)%nat -> f i j = g i j) ->
  tab2 n f = tab2 n g.
Proof.
  intros H. apply tab_ext. intros i Hi. apply tab_ext. intros j Hj.
  by apply H.
Qed.

Section MatrixProofs.
Context {F : Type}.
Variable fzero : F.
Variable mac : F -> F -> F -> F.
Variable draw : nat -> F.

Lemma mat_lookup_tab2 n (f : nat -> nat -> F) i j :
  0 <= i < Z.of_nat n -> 0 <= j < Z.of_nat n ->
  mat_lookup i j (tab2 n f) = Some (f (Z.to_nat i) (Z.to_nat j)).
Proof.
  intros Hi Hj. unfold mat_lookup, tab2.
  replace ((0 <=? i) && (0 <=? j)) with true
    by (symmetry; apply andb_true_intro; lia).
  rewrite lookup_tab by lia. cbn. by rewrite lookup_tab by lia.
Qed.

Lemma mat_insert_tab2 n (f : nat -> nat -> F) i j v :
  0 <= i < Z.of_nat n -> 0 <= j < Z.of_nat n ->
  mat_insert i j v (tab2 n f)
  = Some (tab2 n (fun i' j' =>
                    if decide (i' = Z.to_nat i /\ j' = Z.to_nat j)
                    then v else f i' j')).
Proof.
  intros Hi Hj. unfold mat_insert, tab2.
  replace ((0 <=? i) && (0 <=? j)) with true
    by (symmetry; apply andb_true_intro; lia).
  rewrite lookup_tab by lia.
  rewrite decide_True by (rewrite length_tab; lia).
  rewrite !insert_tab by lia. f_equal.
  apply tab_ext. intros i' Hi'.
  destruct (decide (i' = Z.to_nat i)) as [->|Hne]; apply tab_ext;
    intros j' Hj'; repeat case_decide; try done; lia || tauto.
Qed.


Lemma dot_from_S init a b n i j :
  dot_from mac init a b (S n) i j
  = mac (dot_from mac init a b n i j) (a i n) (b n j).
Proof. unfold dot_from. by rewrite seq_S, foldl_app. Qed.

Ltac tab2_cases :=
  apply tab2_ext; intros ? ? ? ?; unfold filled;
  repeat case_decide; try done; try lia.

Lemma matrix_init_row (n : nat) (i : Z) c :
  0 <= i < Z.of_nat n ->
  for_loop n 0 (Z.of_nat n)
    (fun j _ =>
       let! r := next_draw draw in
       mat_set_a i j r ;;
       let! r := next_draw draw in
       mat_set_b i j r)
    tt
    (Matrices (tab2 n (filled fzero (drawn_a draw n) (Z.to_nat i) 0))
              (tab2 n (filled fzero (drawn_b draw n) (Z.to_nat i) 0))
              c (2 * (Z.to_nat i * n)))
  = Done tt
      (Matrices (tab2 n (filled fzero (drawn_a draw n) (S (Z.to_nat i)) 0))
                (tab2 n (filled fzero (drawn_b draw n) (S (Z.to_nat i)) 0))
                c (2 * (S (Z.to_nat i) * n))).
Proof.
  intros Hi.
  destruct (for_loop_inv
              (fun j (_ : unit) s =>
                 0 <= j
                 /\ s = Matrices
                          (tab2 n (filled fzero (drawn_a draw n) (Z.to_nat i)
                                          (Z.to_nat j)))
                          (tab2 n (filled fzero (drawn_b draw n) (Z.to_nat i)
                                          (Z.to_nat j)))
                          c (2 * (Z.to_nat i * n + Z.to_nat j)))
              (Z.of_nat n)
              (fun j _ =>
                 let! r := next_draw draw in
                 mat_set_a i j r ;;
                 let! r := next_draw draw in
                 mat_set_b i j r))
    with (fuel := n) (i := 0) (acc := tt)
         (s := Matrices (tab2 n (filled fzero (drawn_a draw n) (Z.to_nat i) 0))
                        (tab2 n (filled fzero (drawn_b draw n) (Z.to_nat i) 0))
                        c (2 * (Z.to_nat i * n))%nat)
    as ([] & s & Hrun & _ & ->); try lia.
  - intros j [] s Hj (Hj0 & ->). eexists tt, _.
    rewrite bind_eq. unfold next_draw at 1. cbn [mat_a mat_b mat_c drawn].
    rewrite bind_eq. unfold mat_set_a. cbn [mat_a mat_b mat_c drawn].
    rewrite mat_insert_tab2 by lia.
    rewrite bind_eq. unfold next_draw. cbn [mat_a mat_b mat_c drawn].
    unfold mat_set_b. cbn [mat_a mat_b mat_c drawn].
    rewrite mat_insert_tab2 by lia.
    split; [|split; [lia|reflexivity]].
    f_equal. f_equal.
    + replace (Z.to_nat (j + 1)) with (S (Z.to_nat j)) by lia.
      tab2_cases. destruct_and!. by subst.
    + replace (Z.to_nat (j + 1)) with (S (Z.to_nat j)) by lia.
      tab2_cases. destruct_and!. subst. unfold drawn_b. f_equal. lia.
    + lia.
  - split; [lia|]. f_equal. change (Z.to_nat 0) with 0%nat. lia.
  - rewrite Hrun. f_equal. rewrite Nat2Z.id. f_equal.
    + tab2_cases.
    + tab2_cases.
    + lia.
Qed.


Lemma matrix_init_run (n : nat) c :
  matrix_init draw (Z.of_nat n)
    (Matrices (tab2 n (fun _ _ => fzero)) (tab2 n (fun _ _ => fzero)) c 0)
  = Done tt (Matrices (tab2 n (drawn_a draw n)) (tab2 n (drawn_b draw n)) c
                      (2 * (n * n))).
Proof.
  unfold matrix_init. rewrite Nat2Z.id.
  destruct (for_loop_inv
              (fun i (_ : unit) s =>
                 0 <= i
                 /\ s = Matrices
                          (tab2 n (filled fzero (drawn_a draw n)
                                          (Z.to_nat i) 0))
                          (tab2 n (filled fzero (drawn_b draw n)
                                          (Z.to_nat i) 0))
                          c (2 * (Z.to_nat i * n)))
              (Z.of_nat n)
              (fun i _ =>
                 for_loop n 0 (Z.of_nat n)
                   (fun j _ =>
                      let! r := next_draw draw in
                      mat_set_a i j r ;;
                      let! r := next_draw draw in
                      mat_set_b i j r)
                   tt))
    with (fuel := n) (i := 0) (acc := tt)
         (s := Matrices (tab2 n (fun _ _ => fzero))
                        (tab2 n (fun _ _ => fzero)) c 0%nat)
    as ([] & s & Hrun & _ & ->); try lia.
  - intros i [] s Hi (Hi0 & ->). eexists tt, _.
    rewrite matrix_init_row by lia.
    split; [reflexivity|]. split; [lia|].
    by replace (Z.to_nat (i + 1)) with (S (Z.to_nat i)) by lia.
  - split; [lia|]. change (Z.to_nat 0) with 0%nat. f_equal; tab2_cases.
  - rewrite Hrun. f_equal. rewrite Nat2Z.id. f_equal; tab2_cases.
Qed.

Lemma matrix_product_row (n : nat) (i k : Z) a b g d :
  0 <= i < Z.of_nat n -> 0 <= k < Z.of_nat n ->
  for_loop n 0 (Z.of_nat n)
    (fun j _ =>
       let! bkj := mat_get mat_b k j in
       let! cij := mat_get mat_c i j in
       mat_set_c i j (mac cij (a (Z.to_nat i) (Z.to_nat k)) bkj))
    tt (Matrices (tab2 n a) (tab2 n b) (tab2 n g) d)
  = Done tt
      (Matrices (tab2 n a) (tab2 n b)
         (tab2 n (fun i' j' =>
                    if decide (i' = Z.to_nat i)
                    then mac (g i' j') (a i' (Z.to_nat k))
                             (b (Z.to_nat k) j')
                    else g i' j'))
         d).
Proof.
  intros Hi Hk.
  destruct (for_loop_inv
              (fun j (_ : unit) s =>
                 0 <= j
                 /\ s = Matrices (tab2 n a) (tab2 n b)
                          (tab2 n (fun i' j' =>
                             if decide (i' = Z.to_nat i
                                        /\ (j' < Z.to_nat j)%nat)
                             then mac (g i' j') (a i' (Z.to_nat k))
                                      (b (Z.to_nat k) j')
                             else g i' j'))
                          d)
              (Z.of_nat n)
              (fun j _ =>
                 let! bkj := mat_get mat_b k j in
                 let! cij := mat_get mat_c i j in
                 mat_set_c i j (mac cij (a (Z.to_nat i) (Z.to_nat k)) bkj)))
    with (fuel := n) (i := 0) (acc := tt)
         (s := Matrices (tab2 n a) (tab2 n b) (tab2 n g) d)
    as ([] & s & Hrun & _ & ->); try lia.
  - intros j [] s Hj (Hj0 & ->). eexists tt, _.
    rewrite bind_eq. unfold mat_get at 1. cbn [mat_a mat_b mat_c drawn].
    rewrite mat_lookup_tab2 by lia.
    rewrite bind_eq. unfold mat_get. cbn [mat_a mat_b mat_c drawn].
    rewrite mat_lookup_tab2 by lia.
    rewrite decide_False by lia.
    unfold mat_set_c. cbn [mat_a mat_b mat_c drawn].
    rewrite mat_insert_tab2 by lia.
    split; [|split; [lia|reflexivity]].
    f_equal. f_equal.
    tab2_cases; destruct_and?; subst; try done; lia.
  - split; [lia|]. f_equal. tab2_cases.
  - rewrite Hrun. f_equal. f_equal. tab2_cases; destruct_and?; lia.
Qed.

Lemma matrix_product_rows (n : nat) (i : Z) a b g d :
  0 <= i < Z.of_nat n ->
  for_loop n 0 (Z.of_nat n)
    (fun k _ =>
       let! temp := mat_get mat_a i k in
       for_loop n 0 (Z.of_nat n)
         (fun j _ =>
            let! bkj := mat_get mat_b k j in
            let! cij := mat_get mat_c i j in
            mat_set_c i j (mac cij temp bkj))
         tt)
    tt (Matrices (tab2 n a) (tab2 n b) (tab2 n g) d)
  = Done tt
      (Matrices (tab2 n a) (tab2 n b)
         (tab2 n (fun i' j' =>
                    if decide (i' = Z.to_nat i)
                    then dot_from mac (g i' j') a b n i' j'
                    else g i' j'))
         d).
Proof.
  intros Hi.
  destruct (for_loop_inv
              (fun k (_ : unit) s =>
                 0 <= k
                 /\ s = Matrices (tab2 n a) (tab2 n b)
                          (tab2 n (fun i' j' =>
                             if decide (i' = Z.to_nat i)
                             then dot_from mac (g i' j') a b (Z.to_nat k) i' j'
                             else g i' j'))
                          d)
              (Z.of_nat n)
              (fun k _ =>
                 let! temp := mat_get mat_a i k in
                 for_loop n 0 (Z.of_nat n)
                   (fun j _ =>
                      let! bkj := mat_get mat_b k j in
                      let! cij := mat_get mat_c i j in
                      mat_set_c i j (mac cij temp bkj))
                   tt))
    with (fuel := n) (i := 0) (acc := tt)
         (s := Matrices (tab2 n a) (tab2 n b) (tab2 n g) d)
    as ([] & s & Hrun & _ & ->); try lia.
  - intros k [] s Hk (Hk0 & ->). eexists tt, _.
    rewrite bind_eq. unfold mat_get at 1. cbn [mat_a mat_b mat_c drawn].
    rewrite mat_lookup_tab2 by lia.
    rewrite matrix_product_row by lia.
    split; [|split; [lia|reflexivity]].
    f_equal. f_equal.
    replace (Z.to_nat (k + 1)) with (S (Z.to_nat k)) by lia.
    tab2_cases. by rewrite dot_from_S.
  - split; [lia|]. f_equal. tab2_cases.
  - rewrite Hrun. f_equal. f_equal. by rewrite Nat2Z.id.
Qed.

Lemma matrix_product_run (n : nat) a b d :
  matrix_product mac (Z.of_nat n)
    (Matrices (tab2 n a) (tab2 n b) (tab2 n (fun _ _ => fzero)) d)
  = Done tt (Matrices (tab2 n a) (tab2 n b) (tab2 n (dot fzero mac a b n)) d).
Proof.
  unfold matrix_product. rewrite Nat2Z.id.
  destruct (for_loop_inv
              (fun i (_ : unit) s =>
                 0 <= i
                 /\ s = Matrices (tab2 n a) (tab2 n b)
                          (tab2 n (filled fzero (dot fzero mac a b n)
                                          (Z.to_nat i) 0))
                          d)
              (Z.of_nat n)
              (fun i _ =>
                 for_loop n 0 (Z.of_nat n)
                   (fun k _ =>
                      let! temp := mat_get mat_a i k in
                      for_loop n 0 (Z.of_nat n)
                        (fun j _ =>
                           let! bkj := mat_get mat_b k j in
                           let! cij := mat_get mat_c i j in
                           mat_set_c i j (mac cij temp bkj))
                        tt)
                   tt))
    with (fuel := n) (i := 0) (acc := tt)
         (s := Matrices (tab2 n a) (tab2 n b) (tab2 n (fun _ _ => fzero)) d)
    as ([] & s & Hrun & _ & ->); try lia.
  - intros i [] s Hi (Hi0 & ->). eexists tt, _.
    rewrite matrix_product_rows by lia.
    split; [|split; [lia|reflexivity]].
    f_equal. f_equal.
    replace (Z.to_nat (i + 1)) with (S (Z.to_nat i)) by lia.
    tab2_cases.
  - split; [lia|]. f_equal. tab2_cases.
  - rewrite Hrun. f_equal. f_equal. rewrite Nat2Z.id. tab2_cases.
Qed.

End MatrixProofs.


(** * The further properties at concrete inputs *)

Lemma sve_saxpy_in_place_witness :
  exists m',
    sve_saxpy Binary32.fzero Binary32.fma 4 1 a x x alias_machine
    = Done tt m'
    /\ heap m' !! x
       = Some ((fun e => Binary32.fma a e e) <$> [Binary32.of_Z 1])
    /\ (forall o, o <> x -> heap m' !! o = heap alias_machine !! o).
Proof.
  apply (sve_saxpy_in_place Binary32.fzero Binary32.fma 4 1 a x
           [Binary32.of_Z 1] alias_machine);
    [reflexivity | by vm_compute | lia | by vm_compute | cbn; lia].
Defined.


Lemma sve_saxpy_twice_witness :
  exists m',
    (sve_saxpy Binary32.fzero Binary32.fma 4 2 a x y ;;
     sve_saxpy Binary32.fzero Binary32.fma 4 2 (Binary32.of_Z 2) x y)
      sample_machine = Done tt m'
    /\ heap m' !! y
       = Some (zip_with
                 (fun xi yi =>
                    Binary32.fma (Binary32.of_Z 2) xi (Binary32.fma a xi yi))
                 sample_X sample_Y)
    /\ heap m' !! x = Some sample_X.
Proof.
  apply (sve_saxpy_twice Binary32.fzero Binary32.fma 4 2 a
           (Binary32.of_Z 2) x y sample_X sample_Y sample_machine);
    [reflexivity | reflexivity | done | reflexivity | by vm_compute | lia
    | by vm_compute | cbn; lia].
Defined.

Lemma main_stops_at_first_reading_witness :
  0 = 0
  /\ 7 <= elapsed_seconds demo_clock (calls demo_world_ten)
  /\ (forall j, (1 <= j < calls demo_world_ten)%nat ->
        elapsed_seconds demo_clock j < 7)
  /\ reads demo_world_ten = (calls demo_world_ten + 2)%nat.
Proof.
  apply (main_stops_at_first_reading 4 demo_clock 64 7 12 0
           demo_world_ten);
    [lia | lia | by vm_compute | vm_compute; reflexivity].
Defined.

Lemma main_progress_every_tenth_witness :
  progress_values (stdout demo_world_ten)
  = (fun j => (elapsed_seconds demo_clock (Z.to_nat (10 * j)), 10 * j))
      <$> seqZ 1 (Z.of_nat (calls demo_world_ten) / 10).
Proof.
  apply (main_progress_every_tenth 4 demo_clock 64 7 12 0 demo_world_ten);
    [lia | lia | by vm_compute | vm_compute; reflexivity].
Defined.

Lemma fibonacci_computes_fib_witness :
  fibonacci 10 10 0
  = Done (Fib (Z.to_nat 10)) (0 + (2 * Fib (S (Z.to_nat 10)) - 1)).
Proof. apply (fibonacci_computes_fib 10 10 0); lia. Defined.

Lemma fibonacci_overflows_witness : fibonacci 93 93 0 = Fault.
Proof. apply (fibonacci_overflows 93 93 0); lia. Defined.

Lemma recursive_workload_sum_witness :
  recursive_workload 39 0 = Done 164233872 (0 + 531471964).
Proof. apply (recursive_workload_sum 39 0). lia. Defined.




Lemma branch_intensive_predictable_sum_witness :
  branch_predictable 7 tt = Done (alternating_sum 7) tt
  /\ (7 < 10 ->
      branch_intensive demo_draw 7 tt = Done (alternating_sum 7) tt).
Proof. apply (branch_intensive_predictable_sum demo_draw 7). lia. Defined.

Lemma branch_intensive_can_overflow_witness :
  branch_intensive (fun _ => 45) 10000000 tt = Fault.
Proof.
  apply (branch_intensive_can_overflow (fun _ => 45) 10000000 41);
    [lia | by vm_compute | intros j Hj; lia | by vm_compute].
Defined.

Lemma branch_intensive_defined_witness :
  exists sum,
    branch_intensive demo_draw 100 tt = Done sum tt
    /\ Z.abs sum
       <= (100 / 2 + 89 * (100 / 10))
          * 2 ^ Z.of_nat (doublings demo_draw (Z.to_nat (100 / 10))).
Proof.
  apply (branch_intensive_defined demo_draw 100);
    [lia
    | intros j; unfold demo_draw;
      pose proof (Z.mod_pos_bound (Z.of_nat j * 37) 101); lia
    | by vm_compute].
Defined.

